(** * photutils.datasets: simulated images and example WCS objects

    A shallow embedding of [photutils/datasets/images.py] and
    [photutils/datasets/wcs.py].

    Conventions of the embedding.

    - Numbers.  Python floats are modelled by exact rationals ([Q]); integer
      shapes and indices by [Z] or [nat].  Rounding of IEEE arithmetic is not
      modelled there: [2.0 * np.pi] is the rational value of that double.
      Where the code derives an integer from a float sum (the limits of a
      bounding box, shifted by 0.5 and passed to [math.floor] and
      [math.ceil]), floats are binary64 values of the Standard Library's
      [SpecFloat], with its round-to-nearest-even addition.
    - Model objects (astropy [Fittable2DModel]s) are external.  An object is a
      record holding its parameter names, its current attribute values and a
      pointwise evaluation function that may raise ([None]).  [getattr] reads
      the number an attribute holds at that moment ([model.p.value]),
      [setattr] overwrites it in place; the in-place mutation is threaded
      through every function as explicit state.  The object that Python's
      [getattr(model, p)] returns for a parameter is the model's own
      [Parameter], which [get_parameter] models as a reference.
    - Tables (astropy [QTable]) are ordered lists of named columns.  Tables
      are reference objects: the wrappers that may call [source_table.copy()]
      work on a store of tables addressed by location.
    - Exceptions are values of [exn]; a call either returns [Ok v] or
      [Raise e].  Warnings are collected in a list. *)

From Stdlib Require Import QArith Qround Lqa SpecFloat.
From stdpp Require Import base option list gmap strings fin_maps.

Local Open Scope Z_scope.

(** ** Exceptions, results and warnings *)

Inductive exn : Type :=
  | ValueError
  | KeyError
  | AttributeError
  | UnboundLocalError
  | OverflowError
  | NoOverlapError
  | ModelEvaluationError.

Inductive result (A : Type) : Type :=
  | Ok (a : A)
  | Raise (e : exn).
Arguments Ok {A} a.
Arguments Raise {A} e.

Definition is_ok {A} (r : result A) : bool :=
  match r with Ok _ => true | Raise _ => false end.

Inductive warning : Type :=
  | PsfShapeLargerThanModel (new_shape : Z * Z)
  | PsfShapeLargerThanBoundingBox (new_shape : Z * Z).

(** ** Tables *)

Abbreviation Column := (list Q).

(** A table is the ordered list of its columns; [colnames] keeps the order in
    which the columns were added. *)
Abbreviation Table := (list (string * Column)).

Definition colnames (t : Table) : list string := fst <$> t.

Fixpoint get_column (t : Table) (name : string) : option Column :=
  match t with
  | [] => None
  | (n, c) :: t' => if decide (n = name) then Some c else get_column t' name
  end.

(** Number of rows, [len(table)]: the length of the columns. *)
Definition nrows (t : Table) : nat :=
  match t with
  | [] => 0%nat
  | (_, c) :: _ => length c
  end.

(** All columns of an astropy table have the same length. *)
Definition table_wf (t : Table) : Prop :=
  Forall (λ nc, length nc.2 = nrows t) t.

Fixpoint replace_column (t : Table) (name : string) (c : Column) : Table :=
  match t with
  | [] => []
  | (n, c') :: t' =>
      if decide (n = name) then (n, c) :: t' else (n, c') :: replace_column t' name c
  end.

(** [table[name] = c]: replaces the column when it exists, appends it
    otherwise; a column of the wrong length is refused. *)
Definition setitem (t : Table) (name : string) (c : Column) : result Table :=
  match t with
  | [] => Ok [(name, c)]
  | _ =>
      if decide (length c = nrows t) then
        if decide (name ∈ colnames t) then Ok (replace_column t name c)
        else Ok (t ++ [(name, c)])
      else Raise ValueError
  end.

(** [row[name]] for the row of index [i]. *)
Definition row_value (t : Table) (i : nat) (name : string) : option Q :=
  c ← get_column t name; c !! i.

(** ** Arithmetic on columns with numpy broadcasting *)

Inductive operand : Type :=
  | Scalar (q : Q)
  | Array (c : Column).

Definition broadcast (f : Q → Q → Q) (a b : operand) : operand :=
  match a, b with
  | Scalar x, Scalar y => Scalar (f x y)
  | Scalar x, Array ys => Array (f x <$> ys)
  | Array xs, Scalar y => Array ((λ x, f x y) <$> xs)
  | Array xs, Array ys => Array (zip_with f xs ys)
  end.

(** The double [2.0 * np.pi] = 0x401921FB54442D18. *)
Definition two_pi : Q := 884279719003555 # 140737488355328.

(** ** Images *)

Abbreviation Image := (list (list Q)).

(** [np.zeros(shape)] *)
Definition zeros (shape : nat * nat) : Image :=
  replicate shape.1 (replicate shape.2 0%Q).

Definition pixel (img : Image) (i j : nat) : option Q :=
  row ← img !! i; row !! j.

Definition image_shape (img : Image) : list nat := length <$> img.

(** [image += values], refused when the shapes differ. *)
Definition image_iadd (img values : Image) : result Image :=
  if decide (image_shape img = image_shape values)
  then Ok (zip_with (zip_with Qplus) img values)
  else Raise ValueError.

(** ** Floats whose rounding matters *)

(** Binary64 addition, [a + b] on two Python floats. *)
Definition float_add : spec_float → spec_float → spec_float := SFadd 53 1024.

(** The double [0.5] = 2^52 * 2^-53. *)
Definition float_half : spec_float := S754_finite false 4503599627370496 (-53).

(** The number a finite float stands for: [m * 2^e] with its sign. *)
Definition float_value (x : spec_float) : option Q :=
  match x with
  | S754_zero _ => Some 0%Q
  | S754_finite s m e =>
      let n := cond_Zopp s (Z.pos m) in
      Some (match e with
            | Z0 => inject_Z n
            | Z.pos p => inject_Z (n * Z.pos (2 ^ p))
            | Z.neg p => n # (2 ^ p)
            end)
  | S754_infinity _ | S754_nan => None
  end.

(** [math.floor(x)] and [math.ceil(x)] of a float: the integer below or above
    its exact value; an infinity raises [OverflowError] and a nan
    [ValueError]. *)
Definition math_floor (x : spec_float) : result Z :=
  match x with
  | S754_infinity _ => Raise OverflowError
  | S754_nan => Raise ValueError
  | _ => Ok (Qfloor (from_option id 0%Q (float_value x)))
  end.

Definition math_ceil (x : spec_float) : result Z :=
  match x with
  | S754_infinity _ => Raise OverflowError
  | S754_nan => Raise ValueError
  | _ => Ok (Qceiling (from_option id 0%Q (float_value x)))
  end.

(** ** Model objects *)

(** The limits of [model.bounding_box], Python floats. *)
Record BoundingBox : Type := {
  x_lower : spec_float; x_upper : spec_float;
  y_lower : spec_float; y_upper : spec_float
}.

(** [oversampling] attribute: a scalar or a pair. *)
Inductive oversampling_attr : Type :=
  | OversamplingScalar (n : Z)
  | OversamplingPair (ny nx : Z).

Record Model : Type := {
  param_names : list string;
  attrs : gmap string Q;
  (** [model(x, y)] at one point, with the given parameter values; [None]
      when the evaluation raises. *)
  evaluate : gmap string Q → Q → Q → option Q;
  (** [model.data.shape], when the model has a [data] attribute. *)
  data_shape : option (list Z);
  (** [model.bounding_box]; [None] when it raises [NotImplementedError]. *)
  bounding_box : option BoundingBox;
  (** [model.oversampling], when the attribute exists. *)
  oversampling : option oversampling_attr
}.

Definition getattr (m : Model) (p : string) : option Q := attrs m !! p.

Definition setattr (m : Model) (p : string) (v : Q) : Model :=
  {| param_names := param_names m;
     attrs := <[p := v]> (attrs m);
     evaluate := evaluate m;
     data_shape := data_shape m;
     bounding_box := bounding_box m;
     oversampling := oversampling m |}.

(** The object that [getattr(model, param)] returns for a parameter of an
    astropy model: the model's own [Parameter], not a copy of its number.  It
    has no value of its own: its value is the one the model holds when it is
    read. *)
Inductive ParameterObject : Type :=
  | ParameterOf (name : string).

(** [getattr(model, param)]; [None] when the model has no such attribute. *)
Definition get_parameter (m : Model) (p : string) : option ParameterObject :=
  _ ← attrs m !! p; Some (ParameterOf p).

(** [parameter.value], for a parameter of the model [m]. *)
Definition parameter_value (m : Model) (parameter : ParameterObject) : option Q :=
  match parameter with ParameterOf name => attrs m !! name end.

(** [model(xx, yy)] on a grid of [(x, y)] points. *)
Definition call_model (m : Model) (grid : list (list (Q * Q))) : option Image :=
  mapM (mapM (λ xy, evaluate m (attrs m) xy.1 xy.2)) grid.

(** ** Computations that mutate a model object

    [M A] is a computation that may overwrite attributes of the model object
    it is given and then returns a value or raises. *)

Definition M (A : Type) : Type := Model → Model * result A.

Definition ret {A} (a : A) : M A := λ m, (m, Ok a).
Definition raise {A} (e : exn) : M A := λ m, (m, Raise e).
Definition bind {A B} (c : M A) (k : A → M B) : M B :=
  λ m, match c m with
       | (m', Ok a) => k a m'
       | (m', Raise e) => (m', Raise e)
       end.
Definition lift_option {A} (e : exn) (o : option A) : M A :=
  match o with Some a => ret a | None => raise e end.
Definition lift_result {A} (r : result A) : M A := λ m, (m, r).
Definition do_setattr (p : string) (v : Q) : M unit :=
  λ m, (setattr m p v, Ok tt).
(** [setattr(model, p, parameter)] with a [Parameter] of the model as the
    value: the number written is the one the parameter holds at that
    moment. *)
Definition do_setattr_parameter (p : string) (parameter : ParameterObject)
  : M unit :=
  λ m, match parameter_value m parameter with
       | Some v => (setattr m p v, Ok tt)
       | None => (m, Raise AttributeError)
       end.
Definition get_model : M Model := λ m, (m, Ok m).

(** [try: body finally: fin] *)
Definition try_finally {A} (body : M A) (fin : M unit) : M A :=
  λ m, match body m with
       | (m1, r) =>
           match fin m1 with
           | (m2, Ok _) => (m2, r)
           | (m2, Raise e) => (m2, Raise e)
           end
       end.

Declare Scope model_scope.
Delimit Scope model_scope with model.
Notation "'let*' x := c 'in' k" := (bind c (λ x, k))
  (at level 10, x pattern, c at level 200, k at level 200,
   only parsing) : model_scope.
Local Open Scope model_scope.

(** [for x in l: body x] *)
Fixpoint for_each {A} (l : list A) (body : A → M unit) : M unit :=
  match l with
  | [] => ret tt
  | x :: l' => bind (body x) (λ _, for_each l' body)
  end.

(** A loop that carries an accumulator (the image being built). *)
Fixpoint fold_each {A S} (l : list A) (body : A → S → M S) (s : S) : M S :=
  match l with
  | [] => ret s
  | x :: l' => bind (body x s) (λ s', fold_each l' body s')
  end.

(** ** The model-image renderer *)

Section Renderer.

(** [astropy.convolution.discretize_model(model, x_range, y_range,
    mode='oversample', factor=oversample)] is external: it evaluates the
    model (with its current parameters) and may raise. *)
Variable discretize_model : Model → Z * Z → Z * Z → Q → option Image.

(** [yidx, xidx = np.indices(shape)], as a grid of [(x, y)] points. *)
Definition indices (shape : nat * nat) : list (list (Q * Q)) :=
  (λ i, (λ j, (inject_Z j, inject_Z i)) <$> seqZ 0 (Z.of_nat shape.2))
    <$> seqZ 0 (Z.of_nat shape.1).

Definition params_to_set (model : Model) (source_table : Table) : list string :=
  filter (λ param, param ∈ param_names model) (colnames source_table).

(** [{param: getattr(model, param) for param in params_to_set}]: the
    dictionary holds the model's parameter objects. *)
Definition save_params (model : Model) (params : list string)
  : option (list (string * ParameterObject)) :=
  mapM (λ param, value ← get_parameter model param; Some (param, value)) params.

(** [for param in params: setattr(model, param, source[param])] for the
    row [i] of the table. *)
Definition set_source_params (source_table : Table) (params : list string)
    (i : nat) : M unit :=
  for_each params (λ param,
    let* value := lift_option KeyError (row_value source_table i param) in
    do_setattr param value).

(** The body of the loop over the rows. *)
Definition render_source (shape : nat * nat) (source_table : Table)
    (params : list string) (oversample : Q) (i : nat) (image : Image) : M Image :=
  let* _ := set_source_params source_table params i in
  let* model := get_model in
  let* values :=
    lift_option ModelEvaluationError
      (if Qeq_bool oversample 1 then call_model model (indices shape)
       else discretize_model model (0, Z.of_nat shape.2) (0, Z.of_nat shape.1)
              oversample) in
  lift_result (image_iadd image values).

(** [for param, value in init_params.items(): setattr(model, param, value)] *)
Definition restore_params (init_params : list (string * ParameterObject))
  : M unit :=
  for_each init_params (λ pv, do_setattr_parameter pv.1 pv.2).

Definition make_model_sources_image (shape : nat * nat) (source_table : Table)
    (oversample : Q) : M Image :=
  let image := zeros shape in
  let* model := get_model in
  let params := params_to_set model source_table in
  let* init_params := lift_option AttributeError (save_params model params) in
  try_finally
    (fold_each (seq 0 (nrows source_table))
       (render_source shape source_table params oversample) image)
    (restore_params init_params).

End Renderer.

(** ** The Gaussian and PRF wrappers

    The wrappers receive a reference to the caller's table.  [store] maps
    locations to tables; [source_table.copy()] allocates a fresh location. *)

Abbreviation store := (gmap nat Table).

Definition table_copy (σ : store) (t : Table) : nat * store :=
  let l := fresh (dom σ) in (l, <[l := t]> σ).

(** A column of the table when present, the model's default otherwise. *)
Definition column_or_default (t : Table) (name : string) (default : Q) : operand :=
  if decide (name ∈ colnames t)
  then Array (from_option id [] (get_column t name))
  else Scalar default.

(** The value stored in a new column: an array as it is, a scalar repeated
    for every row. *)
Definition as_column (t : Table) (o : operand) : Column :=
  match o with
  | Array c => c
  | Scalar q => replicate (nrows t) q
  end.

Section Wrappers.

Variable discretize_model : Model → Z * Z → Z * Z → Q → option Image.

(** Pointwise evaluation of astropy's [Gaussian2D] and of
    [IntegratedGaussianPRF] (exponential and error function): external. *)
Variable Gaussian2D_evaluate : gmap string Q → Q → Q → option Q.
Variable IntegratedGaussianPRF_evaluate : gmap string Q → Q → Q → option Q.

(** [astropy.modeling.models.Gaussian2D(x_stddev=..., y_stddev=...)] *)
Definition Gaussian2D (x_stddev y_stddev : Q) : Model :=
  {| param_names :=
       ["amplitude"; "x_mean"; "y_mean"; "x_stddev"; "y_stddev"; "theta"];
     attrs :=
       <["amplitude" := 1%Q]> (<["x_mean" := 0%Q]> (<["y_mean" := 0%Q]>
       (<["x_stddev" := x_stddev]> (<["y_stddev" := y_stddev]>
       (<["theta" := 0%Q]> ∅)))));
     evaluate := Gaussian2D_evaluate;
     data_shape := None;
     bounding_box := None;
     oversampling := None |}.

(** Modelled from the spec: the class [photutils.psf.IntegratedGaussianPRF]
    is not part of the sources.  The spec's PRF model has a flux, a
    position and a width parameter and no amplitude; the sources name them
    [flux], [x_0], [y_0] and [sigma]. *)
Definition IntegratedGaussianPRF (sigma : Q) : Model :=
  {| param_names := ["flux"; "x_0"; "y_0"; "sigma"];
     attrs :=
       <["flux" := 1%Q]> (<["x_0" := 0%Q]> (<["y_0" := 0%Q]>
       (<["sigma" := sigma]> ∅)));
     evaluate := IntegratedGaussianPRF_evaluate;
     data_shape := None;
     bounding_box := None;
     oversampling := None |}.

(** [model.<name>.value] *)
Definition param_value (model : Model) (name : string) : Q :=
  from_option id 0%Q (getattr model name).

(** [source_table['flux'] / (2.0 * np.pi * xstd * ystd)] *)
Definition gaussian_amplitude (flux xstd ystd : operand) : operand :=
  broadcast Qdiv flux
    (broadcast Qmult (broadcast Qmult (Scalar two_pi) xstd) ystd).

(** [source_table['amplitude'] * (2.0 * np.pi * sigma * sigma)] *)
Definition prf_flux (amplitude sigma : operand) : operand :=
  broadcast Qmult amplitude
    (broadcast Qmult (broadcast Qmult (Scalar two_pi) sigma) sigma).

(** The table handed to the renderer by [make_gaussian_sources_image],
    and the store after the optional copy. *)
Definition gaussian_source_table (σ : store) (l : nat) (model : Model)
  : store * result Table :=
  match σ !! l with
  | None => (σ, Raise KeyError)
  | Some source_table =>
      let xstd :=
        column_or_default source_table "x_stddev" (param_value model "x_stddev") in
      let ystd :=
        column_or_default source_table "y_stddev" (param_value model "y_stddev") in
      let colnames := colnames source_table in
      if decide ("flux" ∈ colnames ∧ "amplitude" ∉ colnames) then
        let (l', σ1) := table_copy σ source_table in
        let flux := column_or_default source_table "flux" 0%Q in
        match setitem source_table "amplitude"
                (as_column source_table (gaussian_amplitude flux xstd ystd)) with
        | Ok source_table' => (<[l' := source_table']> σ1, Ok source_table')
        | Raise e => (σ1, Raise e)
        end
      else (σ, Ok source_table)
  end.

Definition make_gaussian_sources_image (shape : nat * nat) (l : nat)
    (oversample : Q) (σ : store) : store * result Image :=
  let model := Gaussian2D 1 1 in
  match gaussian_source_table σ l model with
  | (σ', Ok source_table) =>
      (σ', (make_model_sources_image discretize_model shape source_table
              oversample model).2)
  | (σ', Raise e) => (σ', Raise e)
  end.

(** The table handed to the renderer by [make_gaussian_prf_sources_image],
    and the store after the optional copy. *)
Definition prf_source_table (σ : store) (l : nat) (model : Model)
  : store * result Table :=
  match σ !! l with
  | None => (σ, Raise KeyError)
  | Some source_table =>
      let sigma :=
        column_or_default source_table "sigma" (param_value model "sigma") in
      let colnames := colnames source_table in
      if decide (("flux" ∉ colnames) ∧ "amplitude" ∈ colnames) then
        let (l', σ1) := table_copy σ source_table in
        let amplitude := column_or_default source_table "amplitude" 0%Q in
        match setitem source_table "flux"
                (as_column source_table (prf_flux amplitude sigma)) with
        | Ok source_table' => (<[l' := source_table']> σ1, Ok source_table')
        | Raise e => (σ1, Raise e)
        end
      else (σ, Ok source_table)
  end.

Definition make_gaussian_prf_sources_image (shape : nat * nat) (l : nat)
    (σ : store) : store * result Image :=
  let model := IntegratedGaussianPRF 1 in
  match prf_source_table σ l model with
  | (σ', Ok source_table) =>
      (σ', (make_model_sources_image discretize_model shape source_table
              1 model).2)
  | (σ', Raise e) => (σ', Raise e)
  end.

End Wrappers.

(** ** The PSF evaluation window *)

(** Modelled from the spec: [photutils.utils._parameters.as_pair] is not part
    of the sources.  The spec adjusts the model shape for oversampling per
    axis: a scalar factor applies to both axes, a pair is used as it is. *)
Definition as_pair (o : oversampling_attr) : Z * Z :=
  match o with
  | OversamplingScalar n => (n, n)
  | OversamplingPair ny nx => (ny, nx)
  end.

(** [a > b] on two Python tuples: the lexicographic order. *)
Definition tuple_gt (a b : Z * Z) : bool :=
  (b.1 <? a.1) || ((a.1 =? b.1) && (b.2 <? a.2)).

(** [tuple(np.min([model_shape, psf_shape], axis=0))] *)
Definition min_shape (model_shape psf_shape : Z * Z) : Z * Z :=
  (Z.min model_shape.1 psf_shape.1, Z.min model_shape.2 psf_shape.2).

(** [model_shape] after the [if model_ndim == 3: ... elif model_ndim == 2:
    ...] statement, where [model_ndim] is the length of [data.shape]; [None]
    when neither branch assigned it. *)
Definition data_model_shape (shape : list Z) : option (Z * Z) :=
  match shape with
  | [_; ny; nx] => Some (ny, nx)
  | [ny; nx] => Some (ny, nx)
  | _ => None
  end.

(** The shape derived from the bounding box; the sums are float additions,
    and the four conversions are made, and may raise, in this order. *)
Definition bbox_model_shape (bbox : BoundingBox) : result (Z * Z) :=
  match math_floor (float_add (x_lower bbox) float_half) with
  | Raise e => Raise e
  | Ok ixmin =>
  match math_ceil (float_add (x_upper bbox) float_half) with
  | Raise e => Raise e
  | Ok ixmax =>
  match math_floor (float_add (y_lower bbox) float_half) with
  | Raise e => Raise e
  | Ok iymin =>
  match math_ceil (float_add (y_upper bbox) float_half) with
  | Raise e => Raise e
  | Ok iymax => Ok (iymax - iymin, ixmax - ixmin)
  end end end end.

(** [psf_shape] is the 2-tuple of the docstring, so [psf_shape > model_shape]
    compares two tuples. *)
Definition _define_psf_shape (psf_model : Model) (psf_shape : Z * Z)
  : list warning * result (Z * Z) :=
  let model_bbox := bounding_box psf_model in
  match data_shape psf_model with
  | Some shape =>
      (* model_ndim is not None *)
      let model_shape := data_model_shape shape in
      let oversampling :=
        as_pair (from_option id (OversamplingScalar 1) (oversampling psf_model)) in
      match model_shape with
      | None => ([], Raise UnboundLocalError)
      | Some model_shape =>
          let model_shape :=
            (model_shape.1 `div` oversampling.1, model_shape.2 `div` oversampling.2) in
          if tuple_gt psf_shape model_shape then
            let psf_shape := min_shape model_shape psf_shape in
            ([PsfShapeLargerThanModel psf_shape], Ok psf_shape)
          else ([], Ok psf_shape)
      end
  | None =>
      match model_bbox with
      | Some model_bbox =>
          match bbox_model_shape model_bbox with
          | Raise e => ([], Raise e)
          | Ok model_shape =>
              if tuple_gt psf_shape model_shape then
                let psf_shape := min_shape model_shape psf_shape in
                ([PsfShapeLargerThanBoundingBox psf_shape], Ok psf_shape)
              else ([], Ok psf_shape)
          end
      | None => ([], Ok psf_shape)
      end
  end.

(** ** Clipped windows *)

(** A slice [start:stop]. *)
Abbreviation slice := (Z * Z)%type.

Definition in_slice (s : slice) (i : nat) : bool :=
  (s.1 <=? Z.of_nat i) && (Z.of_nat i <? s.2).

Definition edge_min (pos : Q) (small : Z) : Z :=
  Qceiling (pos - inject_Z small / 2).
Definition edge_max (pos : Q) (small : Z) : Z :=
  Qceiling (pos + inject_Z small / 2).

(** [astropy.nddata.overlap_slices(large_shape, small_shape, position,
    mode='trim')] is external; this is its [slices_large] result: the window
    of [small_shape] centred at [position], intersected with the array.  A
    window that ends at or before index 0, or starts at or after the size of
    the array, on some axis raises [NoOverlapError]. *)
Definition overlap_slices (large_shape : nat * nat) (small_shape : Z * Z)
    (position : Q * Q) : result (slice * slice) :=
  let emin := (edge_min position.1 small_shape.1, edge_min position.2 small_shape.2) in
  let emax := (edge_max position.1 small_shape.1, edge_max position.2 small_shape.2) in
  if (emax.1 <=? 0) || (emax.2 <=? 0) then Raise NoOverlapError
  else if (Z.of_nat large_shape.1 <=? emin.1) || (Z.of_nat large_shape.2 <=? emin.2)
  then Raise NoOverlapError
  else Ok ((Z.max 0 emin.1, Z.min (Z.of_nat large_shape.1) emax.1),
           (Z.max 0 emin.2, Z.min (Z.of_nat large_shape.2) emax.2)).

(** The pixel [(i, j)] lies in the window of [psf_shape] centred at
    [position], clipped to the image: on each axis, between the lower edge
    (or 0) and the upper edge (or the image size). *)
Definition in_window (shape : nat * nat) (psf_shape : Z * Z) (position : Q * Q)
    (i j : nat) : Prop :=
  (Z.max 0 (edge_min position.1 psf_shape.1) ≤ Z.of_nat i
     < Z.min (Z.of_nat shape.1) (edge_max position.1 psf_shape.1)) ∧
  (Z.max 0 (edge_min position.2 psf_shape.2) ≤ Z.of_nat j
     < Z.min (Z.of_nat shape.2) (edge_max position.2 psf_shape.2)).

(** [yy, xx = np.mgrid[slc]], as a grid of [(x, y)] points. *)
Definition mgrid (slc : slice * slice) : list (list (Q * Q)) :=
  (λ i, (λ j, (inject_Z j, inject_Z i)) <$> seqZ slc.2.1 (slc.2.2 - slc.2.1))
    <$> seqZ slc.1.1 (slc.1.2 - slc.1.1).

(** [data[slc] += values]; [values] has the shape of the slice. *)
Definition iadd_slice (data : Image) (slc : slice * slice) (values : Image) : Image :=
  imap (λ i row,
    if in_slice slc.1 i then
      imap (λ j v,
        if in_slice slc.2 j then
          (v + from_option id 0
                 (pixel values (i - Z.to_nat slc.1.1) (j - Z.to_nat slc.2.1)))%Q
        else v) row
    else row) data.

(** ** Random positions and fluxes *)

Definition in_range (r : Z * Z) (v : Q) : Prop :=
  (inject_Z r.1 <= v)%Q ∧ (v <= inject_Z r.2)%Q.

Definition separated (d : Q) (a b : Q * Q) : Prop :=
  (d <= 0)%Q ∨
  (d * d <= (a.1 - b.1) * (a.1 - b.1) + (a.2 - b.2) * (a.2 - b.2))%Q.

(** Modelled from the spec: [photutils.utils._coords.make_random_xycoords] is
    not part of the sources.  It is a pluggable capability that, invoked with
    a seed, returns at most [size] positions inside the given ranges with
    pairwise separation at least [min_separation], and issues no warning
    when it returns fewer.  [rng_uniform] is numpy's
    [default_rng(seed).uniform(low, high, size)], which returns [size]
    numbers. *)
Class Sampler : Type := {
  make_random_xycoords : nat → Z * Z → Z * Z → Q → Z → list (Q * Q);
  rng_uniform : Z → Q → Q → nat → list Q;
  make_random_xycoords_length size xrange yrange min_separation seed :
    (length (make_random_xycoords size xrange yrange min_separation seed)
       ≤ size)%nat;
  make_random_xycoords_range size xrange yrange min_separation seed :
    Forall (λ xy, in_range xrange xy.1 ∧ in_range yrange xy.2)
      (make_random_xycoords size xrange yrange min_separation seed);
  make_random_xycoords_separated size xrange yrange min_separation seed :
    ForallOrdPairs (separated min_separation)
      (make_random_xycoords size xrange yrange min_separation seed);
  rng_uniform_length seed low high size :
    length (rng_uniform seed low high size) = size
}.

(** ** The PSF test-data builder *)

(** [table.rename_column(old, new)] *)
Definition rename_column (t : Table) (old new : string) : Table :=
  (λ nc, if decide (nc.1 = old) then (new, nc.2) else nc) <$> t.

Definition bind_result {A B} (r : result A) (k : A → result B) : result B :=
  match r with Ok a => k a | Raise e => Raise e end.

(** [QTable()] with the columns [x_0], [y_0] and [flux]. *)
Definition sources_table (x y flux : Column) : result Table :=
  bind_result (setitem [] "x_0" x) (λ t,
  bind_result (setitem t "y_0" y) (λ t,
  setitem t "flux" flux)).

Definition half_shape (psf_shape : Z * Z) : Z * Z :=
  ((psf_shape.1 - 1) `div` 2, (psf_shape.2 - 1) `div` 2).

(** The body of the loop over the sources. *)
Definition place_source (shape : nat * nat) (psf_shape : Z * Z) (sources : Table)
    (i : nat) (data : Image) : M Image :=
  let* _ := set_source_params sources ["x_0"; "y_0"; "flux"] i in
  let* xcen := lift_option KeyError (row_value sources i "x_0") in
  let* ycen := lift_option KeyError (row_value sources i "y_0") in
  let* slc_lg := lift_result (overlap_slices shape psf_shape (ycen, xcen)) in
  let* psf_model := get_model in
  let* values :=
    lift_option ModelEvaluationError (call_model psf_model (mgrid slc_lg)) in
  ret (iadd_slice data slc_lg values).

Section PSFData.

Context `{Sampler}.

(** The border margin: [hshape]. *)
Definition border_margin (psf_shape : Z * Z) (border_size : option (Z * Z))
  : Z * Z :=
  match border_size with
  | None => half_shape psf_shape
  | Some border_size => border_size
  end.

(** The ranges handed to [make_random_xycoords]. *)
Definition center_ranges (shape : nat * nat) (hshape : Z * Z)
  : (Z * Z) * (Z * Z) :=
  let xrange := (hshape.2, Z.of_nat shape.2 - hshape.2) in
  let yrange := (hshape.1, Z.of_nat shape.1 - hshape.1) in
  (xrange, yrange).

(** [xycoords], for the window [psf_shape] that [_define_psf_shape]
    returned. *)
Definition source_xycoords (shape : nat * nat) (psf_shape : Z * Z)
    (nsources : nat) (min_separation : Q) (seed : Z)
    (border_size : option (Z * Z)) : list (Q * Q) :=
  let hshape := border_margin psf_shape border_size in
  let (xrange, yrange) := center_ranges shape hshape in
  make_random_xycoords nsources xrange yrange min_separation seed.

(** The progress bar only wraps the iteration over the rows and is left
    out.  The result is the model object as the call leaves it, the warnings
    issued, and the returned pair or the exception raised. *)
Definition make_test_psf_data (shape : nat * nat) (psf_shape : Z * Z)
    (nsources : nat) (flux_range : Q * Q) (min_separation : Q) (seed : Z)
    (border_size : option (Z * Z)) (psf_model : Model)
  : Model * (list warning * result (Image * Table)) :=
  match _define_psf_shape psf_model psf_shape with
  | (ws, Raise e) => (psf_model, (ws, Raise e))
  | (ws, Ok psf_shape) =>
      let xycoords :=
        source_xycoords shape psf_shape nsources min_separation seed
          border_size in
      let x := fst <$> xycoords in
      let y := snd <$> xycoords in
      let flux := rng_uniform seed flux_range.1 flux_range.2 nsources in
      let flux := take (length x) flux in
      match sources_table x y flux with
      | Raise e => (psf_model, (ws, Raise e))
      | Ok sources =>
          let data := zeros shape in
          match fold_each (seq 0 (nrows sources))
                  (place_source shape psf_shape sources) data psf_model with
          | (psf_model', Raise e) => (psf_model', (ws, Raise e))
          | (psf_model', Ok data) =>
              let sources := rename_column sources "x_0" "x" in
              let sources := rename_column sources "y_0" "y" in
              let sources := rename_column sources "flux" "flux" in
              (psf_model', (ws, Ok (data, sources)))
          end
      end
  end.

End PSFData.

(** ** Image containers ([wcs.py]) *)

(** A numpy array: its shape and its values in row-major order. *)
Record ndarray : Type := {
  nd_shape : list nat;
  nd_values : list Q
}.

Definition ndim (a : ndarray) : nat := length (nd_shape a).

Section ImageHDU.

(** [astropy.wcs.WCS], the FITS header type and [wcs.to_header()] are
    external. *)
Variables WCS Header : Type.
Variable to_header : WCS → Header.

(** [astropy.io.fits.ImageHDU(data, header=header)] *)
Record ImageHDU : Type := {
  hdu_data : ndarray;
  hdu_header : option Header
}.

(** [data] is the array returned by [np.asanyarray]. *)
Definition make_imagehdu (data : ndarray) (wcs : option WCS) : result ImageHDU :=
  if decide (ndim data ≠ 2%nat) then Raise ValueError
  else
    let header :=
      match wcs with
      | Some wcs => Some (to_header wcs)
      | None => None
      end in
    Ok {| hdu_data := data; hdu_header := header |}.

End ImageHDU.

Arguments hdu_data {Header} _.
Arguments hdu_header {Header} _.

(** ** The coordinate-system builders ([wcs.py])

    The builders only assemble parameters; the transforms themselves are
    evaluated by astropy and gwcs.  The objects are modelled by the
    parameters they are built from. *)

Definition matrix2 : Type := (Q * Q) * (Q * Q).

(** [astropy.wcs.WCS(naxis=2)] with the attributes that [make_wcs] sets. *)
Record WCSObject : Type := {
  pixel_shape : nat * nat;
  crpix : Q * Q;
  crval : Q * Q;
  cunit : string * string;
  cd : matrix2;
  radesys : option string;
  ctype : string * string
}.

Inductive celestial_frame : Type := ICRS | Galactic.

(** The pipeline of [make_gwcs]: [shift_by_crpix | rotation | tan |
    celestial_rotation] into a sky frame. *)
Record GWCSObject : Type := {
  shift_by_crpix : Q * Q;
  rotation : matrix2;
  projection : string;
  celestial_rotation : Q * Q * Q;
  sky_frame : celestial_frame
}.

Section WCSBuilders.

(** [np.cos(rho)] and [np.sin(rho)] for [rho = np.pi / 3.0]. *)
Variables cos_rho sin_rho : Q.

(** 0.1 arcsec/pixel in deg/pix *)
Definition scale : Q := (1 # 10) / 3600.

Definition cd_matrix : matrix2 :=
  ((- scale * cos_rho, scale * sin_rho), (scale * sin_rho, scale * cos_rho))%Q.

Definition make_wcs (shape : nat * nat) (galactic : bool) : WCSObject :=
  {| pixel_shape := shape;
     crpix := (inject_Z (Z.of_nat shape.2) / 2, inject_Z (Z.of_nat shape.1) / 2)%Q;
     crval := (1978925 # 10000, - (136555556 # 100000000))%Q;
     cunit := ("deg", "deg");
     cd := cd_matrix;
     radesys := if negb galactic then Some "ICRS" else None;
     ctype :=
       if negb galactic then ("RA---TAN", "DEC--TAN")
       else ("GLON-CAR", "GLAT-CAR") |}.

Definition make_gwcs (shape : nat * nat) (galactic : bool) : GWCSObject :=
  {| shift_by_crpix :=
       (- inject_Z (Z.of_nat shape.2) / 2 + 1, - inject_Z (Z.of_nat shape.1) / 2 + 1)%Q;
     rotation := cd_matrix;
     projection := "TAN";
     celestial_rotation :=
       (1978925 # 10000, - (136555556 # 100000000), 180)%Q;
     sky_frame := if galactic then Galactic else ICRS |}.

(** The projection code of a FITS axis type: its last three characters. *)
Definition ctype_projection (ctype : string) : string :=
  String.substring 5 3 ctype.

End WCSBuilders.

(** ** The canned example images *)

(** [image + c] for a scalar [c]. *)
Definition image_add_scalar (image : Image) (c : Q) : Image :=
  (λ row : list Q, (λ v, v + c)%Q <$> row) <$> image.

(** [QTable()] followed by [table[name] = column] for each column in turn. *)
Definition qtable (columns : list (string * Column)) : result Table :=
  foldl (λ r nc, bind_result r (λ t, setitem t nc.1 nc.2)) (Ok []) columns.

(** [table[name]] *)
Definition getitem (t : Table) (name : string) : result Column :=
  match get_column t name with
  | Some c => Ok c
  | None => Raise KeyError
  end.

(** The double [np.pi]. *)
Definition np_pi : Q := 884279719003555 # 281474976710656.

(** [np.radians] *)
Definition radians (degrees : Q) : Q := (degrees * (np_pi / 180))%Q.

Section ExampleImages.

Variable discretize_model : Model → Z * Z → Z * Z → Q → option Image.
Variable Gaussian2D_evaluate : gmap string Q → Q → Q → option Q.

(** [np.random.RandomState(seed)] is external: a generator whose state
    advances with every draw.  [rs_uniform rng low high size] is
    [rng.uniform(low, high, size)], [rs_normal rng loc scale shape] is
    [rng.normal(loc=loc, scale=scale, size=shape)]; both return the numbers
    drawn and the next state. *)
Variable rng_state : Type.
Variable RandomState : Z → rng_state.
Variable rs_uniform : rng_state → Q → Q → nat → list Q * rng_state.
Variable rs_normal : rng_state → Q → Q → nat * nat → Image * rng_state.

(** The tables of the two functions are local objects: the wrapper is called
    on a store that holds the table alone. *)
Definition make_4gaussians_image (noise : bool) : result Image :=
  bind_result
    (qtable
       [("amplitude", [50; 70; 150; 210]%Q);
        ("x_mean", [160; 25; 150; 90]%Q);
        ("y_mean", [70; 40; 25; 60]%Q);
        ("x_stddev", [152 # 10; 51 # 10; 3; 81 # 10]%Q);
        ("y_stddev", [26 # 10; 25 # 10; 3; 47 # 10]%Q);
        ("theta", radians <$> [145; 20; 0; 60]%Q)])
    (λ table,
  let shape := (100, 200)%nat in
  bind_result
    (make_gaussian_sources_image discretize_model Gaussian2D_evaluate shape
       0%nat 1 {[0%nat := table]}).2
    (λ image,
  let data := image_add_scalar image 5 in
  if noise then
    let rng := RandomState 12345 in
    image_iadd data (rs_normal rng 0 5 shape).1
  else Ok data)).

(** [for param_name, (lower, upper) in params.items():
       sources[param_name] = rng.uniform(lower, upper, n_sources)] *)
Fixpoint random_columns (rng : rng_state) (params : list (string * (Q * Q)))
    (n_sources : nat) (sources : Table) : result Table :=
  match params with
  | [] => Ok sources
  | (param_name, (lower, upper)) :: params' =>
      let (column, rng') := rs_uniform rng lower upper n_sources in
      bind_result (setitem sources param_name column)
        (random_columns rng' params' n_sources)
  end.

(** The parameter ranges of [make_100gaussians_image], in the order of the
    dictionary. *)
Definition params_100gaussians : list (string * (Q * Q)) :=
  [("flux", (500, 1000)); ("x_mean", (0, 500)); ("y_mean", (0, 300));
   ("x_stddev", (1, 5)); ("y_stddev", (1, 5)); ("theta", (0, two_pi))]%Q.

(** The table of sources of [make_100gaussians_image]. *)
Definition sources_100gaussians : result Table :=
  let n_sources := 100%nat in
  let rng := RandomState 12345 in
  bind_result (random_columns rng params_100gaussians n_sources []) (λ sources,
  bind_result (getitem sources "x_stddev") (λ xstd,
  bind_result (getitem sources "y_stddev") (λ ystd,
  bind_result (getitem sources "flux") (λ flux,
  setitem sources "amplitude"
    (as_column sources
       (gaussian_amplitude (Array flux) (Array xstd) (Array ystd))))))).

Definition make_100gaussians_image (noise : bool) : result Image :=
  bind_result sources_100gaussians (λ sources,
  let shape := (300, 500)%nat in
  bind_result
    (make_gaussian_sources_image discretize_model Gaussian2D_evaluate shape
       0%nat 1 {[0%nat := sources]}).2
    (λ image,
  let data := image_add_scalar image 5 in
  if noise then
    let rng := RandomState 12345 in
    image_iadd data (rs_normal rng 0 2 shape).1
  else Ok data)).

End ExampleImages.

(** ** Concrete inputs

    A sampler that satisfies the contract of [Sampler], and a small PSF model,
    used to run the functions on explicit inputs. *)

Definition separatedb (d : Q) (a b : Q * Q) : bool :=
  Qle_bool d 0 ||
  Qle_bool (d * d) ((a.1 - b.1) * (a.1 - b.1) + (a.2 - b.2) * (a.2 - b.2)).

(** The integer points of the region, row by row. *)
Definition lattice (xrange yrange : Z * Z) : list (Q * Q) :=
  y ← seqZ yrange.1 (yrange.2 - yrange.1 + 1);
  (λ x, (inject_Z x, inject_Z y)) <$> seqZ xrange.1 (xrange.2 - xrange.1 + 1).

(** Keeps, in order, at most [size] candidates that are separated from all
    the candidates kept before. *)
Fixpoint greedy (d : Q) (size : nat) (kept candidates : list (Q * Q))
  : list (Q * Q) :=
  match candidates with
  | [] => []
  | c :: cs =>
      match size with
      | O => []
      | S size' =>
          if forallb (λ a, separatedb d a c) kept
          then c :: greedy d size' (c :: kept) cs
          else greedy d size kept cs
      end
  end.

Definition lattice_xycoords (size : nat) (xrange yrange : Z * Z)
    (min_separation : Q) (seed : Z) : list (Q * Q) :=
  greedy min_separation size [] (lattice xrange yrange).

(** [size] numbers spread from [low] towards [high]. *)
Definition ramp_uniform (seed : Z) (low high : Q) (size : nat) : list Q :=
  (λ i, low + (high - low) * (Z.of_nat i # Pos.of_succ_nat size))%Q <$> seq 0 size.

(** A PSF model that is worth its flux at every point. *)
Definition flat_psf : Model :=
  {| param_names := ["flux"; "x_0"; "y_0"];
     attrs := <["flux" := 1%Q]> (<["x_0" := 0%Q]> (<["y_0" := 0%Q]> ∅));
     evaluate := λ a _ _, Some (from_option id 0%Q (a !! "flux"));
     data_shape := None;
     bounding_box := None;
     oversampling := None |}.

(** A PSF model with a data array of the given shape. *)
Definition data_psf (shape : list Z) : Model :=
  {| param_names := ["flux"; "x_0"; "y_0"];
     attrs := <["flux" := 1%Q]> (<["x_0" := 0%Q]> (<["y_0" := 0%Q]> ∅));
     evaluate := λ a _ _, Some (from_option id 0%Q (a !! "flux"));
     data_shape := Some shape;
     bounding_box := None;
     oversampling := None |}.

(** The run used below: a 9 x 9 image, a 3 x 3 window, five sources requested
    with a minimum separation of 100 pixels, of which one is realized, at
    [(1, 1)] with flux 100. *)
Definition example_model' : Model :=
  setattr (setattr (setattr flat_psf "x_0" 1) "y_0" 1) "flux" (600 # 6).
Definition example_sources : Table :=
  [("x", [1%Q]); ("y", [1%Q]); ("flux", [600 # 6])].
Definition example_data : Image :=
  replicate 3 (replicate 3 (600 # 6) ++ replicate 6 0%Q)
    ++ replicate 6 (replicate 9 0%Q).

(** Concrete inputs for the wrappers: models that are worth their amplitude
    (their flux) at every point, and no oversampled evaluation. *)
Definition no_discretize : Model → Z * Z → Z * Z → Q → option Image :=
  λ _ _ _ _, None.
Definition amplitude_evaluate (a : gmap string Q) (x y : Q) : option Q :=
  a !! "amplitude".
Definition flux_evaluate (a : gmap string Q) (x y : Q) : option Q :=
  a !! "flux".

Definition flux_only_table : Table :=
  [("flux", [10; 20]%Q); ("x_mean", [0; 1]%Q); ("y_mean", [0; 1]%Q);
   ("x_stddev", [2; 1]%Q)].
Definition amplitude_only_table : Table :=
  [("amplitude", [3; 4]%Q); ("x_0", [0; 1]%Q); ("y_0", [0; 1]%Q);
   ("sigma", [2; 1]%Q)].
Definition both_table : Table :=
  [("flux", [10%Q]); ("amplitude", [3%Q]); ("x_0", [0%Q]); ("y_0", [0%Q]);
   ("sigma", [2%Q])].

(** A 2 x 2 image and a 1 x 2 x 2 cube. *)
Definition example_image : ndarray :=
  {| nd_shape := [2; 2]%nat; nd_values := [1; 2; 3; 4]%Q |}.
Definition example_cube : ndarray :=
  {| nd_shape := [1; 2; 2]%nat; nd_values := [1; 2; 3; 4]%Q |}.

(** Concrete inputs for the renderer: a model that refuses a negative flux,
    tables with two rows, with a negative flux and with no row. *)
Definition picky_psf : Model :=
  {| param_names := ["flux"; "x_0"; "y_0"];
     attrs := <["flux" := 1%Q]> (<["x_0" := 0%Q]> (<["y_0" := 0%Q]> ∅));
     evaluate := λ a _ _, f ← a !! "flux"; if Qle_bool 0 f then Some f else None;
     data_shape := None;
     bounding_box := None;
     oversampling := None |}.

(** The bounding box x in [-2.5, 2.5], y in [-1.5, 1.5]. *)
Definition example_bbox : BoundingBox :=
  {| x_lower := S754_finite true 5629499534213120 (-51);
     x_upper := S754_finite false 5629499534213120 (-51);
     y_lower := S754_finite true 6755399441055744 (-52);
     y_upper := S754_finite false 6755399441055744 (-52) |}.

Definition two_sources_table : Table :=
  [("flux", [10; 20]%Q); ("x_0", [0; 1]%Q); ("note", [7; 7]%Q)].
Definition negative_flux_table : Table :=
  [("flux", [10; -5]%Q); ("x_0", [0; 1]%Q)].
Definition no_rows_table : Table :=
  [("flux", []); ("x_0", [])].

(** Concrete inputs for the example images: a Gaussian that is worth its
    amplitude at every point, and generators that count their draws. *)
Definition total_amplitude_evaluate (a : gmap string Q) (x y : Q) : option Q :=
  Some (from_option id 0%Q (a !! "amplitude")).
Definition total_flux_evaluate (a : gmap string Q) (x y : Q) : option Q :=
  Some (from_option id 0%Q (a !! "flux")).
Definition counter_uniform (rng : nat) (low high : Q) (size : nat)
  : list Q * nat :=
  (replicate size low, S rng).
Definition counter_normal (rng : nat) (loc scale : Q) (shape : nat * nat)
  : Image * nat :=
  (zeros shape, S rng).

(** ** Vocabulary of the statements *)

(** [m'] is the object [m] with, at most, the attributes [ps] overwritten. *)
Definition modifies_only (ps : list string) (m m' : Model) : Prop :=
  param_names m' = param_names m ∧
  evaluate m' = evaluate m ∧
  data_shape m' = data_shape m ∧
  bounding_box m' = bounding_box m ∧
  oversampling m' = oversampling m ∧
  ∀ k, k ∉ ps → attrs m' !! k = attrs m !! k.

Definition touches_only {A} (ps : list string) (c : M A) : Prop :=
  ∀ m, modifies_only ps m (c m).1.

(** The float [x] is finite and stands for the number [v]. *)
Definition float_is (x : spec_float) (v : Q) : Prop :=
  ∃ v', float_value x = Some v' ∧ (v' == v)%Q.

(** The float [x] stands for [v], and its shift by 0.5 is exact. *)
Definition exact_half_shift (x : spec_float) (v : Q) : Prop :=
  float_is x v ∧ float_is (float_add x float_half) (v + (1 # 2))%Q.

(** The computation [c] removes no attribute of the model object. *)
Definition keeps_attrs {A} (c : M A) : Prop :=
  ∀ m k, is_Some (attrs m !! k) → is_Some (attrs (c m).1 !! k).

(** The element of index [i] of an operand; a scalar is worth itself at every
    index. *)
Definition operand_at (o : operand) (i : nat) : option Q :=
  match o with
  | Scalar q => Some q
  | Array c => c !! i
  end.

(** An array operand has [n] elements. *)
Definition operand_fits (n : nat) (o : operand) : Prop :=
  match o with
  | Scalar _ => True
  | Array c => length c = n
  end.

(** The denominator [2.0 * np.pi * xstd * ystd]. *)
Definition gaussian_factor (t : Table) : operand :=
  broadcast Qmult
    (broadcast Qmult (Scalar two_pi) (column_or_default t "x_stddev" 1%Q))
    (column_or_default t "y_stddev" 1%Q).

(** The factor [2.0 * np.pi * sigma * sigma]. *)
Definition prf_factor (t : Table) : operand :=
  broadcast Qmult
    (broadcast Qmult (Scalar two_pi) (column_or_default t "sigma" 1%Q))
    (column_or_default t "sigma" 1%Q).

Section WrapperStatements.

Variable discretize_model : Model → Z * Z → Z * Z → Q → option Image.
Variable Gaussian2D_evaluate : gmap string Q → Q → Q → option Q.
Variable IntegratedGaussianPRF_evaluate : gmap string Q → Q → Q → option Q.

Local Abbreviation Gaussian := (Gaussian2D Gaussian2D_evaluate 1 1).
Local Abbreviation PRF := (IntegratedGaussianPRF IntegratedGaussianPRF_evaluate 1).

(** The Gaussian wrapper derives the amplitude column from the flux column:
    the renderer receives the table with a new column [amplitude], worth
    [flux / (2 pi sigma_x sigma_y)] on each row. *)
Definition gaussian_converts_flux shape oversample (σ : store) l t : Prop :=
  ∃ amplitude σ',
    make_gaussian_sources_image discretize_model Gaussian2D_evaluate shape l
      oversample σ
    = (σ', (make_model_sources_image discretize_model shape
              (t ++ [("amplitude", amplitude)]) oversample Gaussian).2) ∧
    ∀ i f sx sy,
      row_value t i "flux" = Some f →
      operand_at (column_or_default t "x_stddev" 1%Q) i = Some sx →
      operand_at (column_or_default t "y_stddev" 1%Q) i = Some sy →
      ∃ a,
        row_value (t ++ [("amplitude", amplitude)]) i "amplitude" = Some a ∧
        a = (f / (two_pi * sx * sy))%Q ∧
        (¬ (two_pi * sx * sy == 0)%Q → (f == a * (two_pi * sx * sy))%Q).

(** The Gaussian wrapper hands the table to the renderer as it is; the
    renderer sets [amplitude] from the table and never reads [flux]: other
    flux values give the same result. *)
Definition gaussian_prefers_amplitude shape oversample (σ : store) l t : Prop :=
  make_gaussian_sources_image discretize_model Gaussian2D_evaluate shape l
    oversample σ
  = (σ, (make_model_sources_image discretize_model shape t oversample
           Gaussian).2) ∧
  "amplitude" ∈ params_to_set Gaussian t ∧
  ("flux" ∉ params_to_set Gaussian t) ∧
  ∀ flux',
    length flux' = nrows t →
    (make_gaussian_sources_image discretize_model Gaussian2D_evaluate shape l
       oversample (<[l := replace_column t "flux" flux']> σ)).2
    = (make_gaussian_sources_image discretize_model Gaussian2D_evaluate shape l
         oversample σ).2.

(** The PRF wrapper derives the flux column from the amplitude column: the
    renderer receives the table with a new column [flux], worth
    [amplitude * (2 pi sigma sigma)] on each row. *)
Definition prf_converts_amplitude shape (σ : store) l t : Prop :=
  ∃ flux σ',
    make_gaussian_prf_sources_image discretize_model
      IntegratedGaussianPRF_evaluate shape l σ
    = (σ', (make_model_sources_image discretize_model shape
              (t ++ [("flux", flux)]) 1 PRF).2) ∧
    ∀ i a s,
      row_value t i "amplitude" = Some a →
      operand_at (column_or_default t "sigma" 1%Q) i = Some s →
      row_value (t ++ [("flux", flux)]) i "flux" = Some (a * (two_pi * s * s))%Q.

(** The PRF wrapper hands the table to the renderer as it is; the renderer
    sets [flux] from the table and never reads [amplitude]. *)
Definition prf_prefers_flux shape (σ : store) l t : Prop :=
  make_gaussian_prf_sources_image discretize_model
    IntegratedGaussianPRF_evaluate shape l σ
  = (σ, (make_model_sources_image discretize_model shape t 1 PRF).2) ∧
  "flux" ∈ params_to_set PRF t ∧
  ("amplitude" ∉ params_to_set PRF t) ∧
  ∀ amplitude',
    length amplitude' = nrows t →
    (make_gaussian_prf_sources_image discretize_model
       IntegratedGaussianPRF_evaluate shape l
       (<[l := replace_column t "amplitude" amplitude']> σ)).2
    = (make_gaussian_prf_sources_image discretize_model
         IntegratedGaussianPRF_evaluate shape l σ).2.

End WrapperStatements.

(** Every parameter of the model object has a value. *)
Definition model_wf (m : Model) : Prop :=
  ∀ p, p ∈ param_names m → is_Some (attrs m !! p).

(** The model evaluates at every point, whatever its parameter values. *)
Definition evaluates_everywhere (m : Model) : Prop :=
  ∀ a x y, is_Some (evaluate m a x y).

(** The model object [m] with the attribute values [a]. *)
Definition with_attrs (m : Model) (a : gmap string Q) : Model :=
  {| param_names := param_names m;
     attrs := a;
     evaluate := evaluate m;
     data_shape := data_shape m;
     bounding_box := bounding_box m;
     oversampling := oversampling m |}.

(** The attribute values [a] with the parameters [ps] set from the row [i]
    of the table. *)
Definition row_attrs (a : gmap string Q) (t : Table) (ps : list string) (i : nat)
  : gmap string Q :=
  foldl (λ a p, from_option (λ v, <[p := v]> a) a (row_value t i p)) a ps.

(** The value at [(x, y)] of the source of row [i]: the model evaluated with
    the parameters of the row, and its own values for the others. *)
Definition source_value (m : Model) (t : Table) (i : nat) (x y : Q) : Q :=
  from_option id 0%Q
    (evaluate m (row_attrs (attrs m) t (params_to_set m t) i) x y).

(** The table of [make_4gaussians_image]. *)
Definition table_4gaussians : Table :=
  [("amplitude", [50; 70; 150; 210]%Q);
   ("x_mean", [160; 25; 150; 90]%Q);
   ("y_mean", [70; 40; 25; 60]%Q);
   ("x_stddev", [152 # 10; 51 # 10; 3; 81 # 10]%Q);
   ("y_stddev", [26 # 10; 25 # 10; 3; 47 # 10]%Q);
   ("theta", radians <$> [145; 20; 0; 60]%Q)].

(** The sum, at the pixel [(i, j)], of the sources of a table rendered with
    the model [m]. *)
Definition sources_sum (m : Model) (t : Table) (i j : nat) : Q :=
  foldl Qplus 0%Q
    ((λ k, source_value m t k (inject_Z (Z.of_nat j)) (inject_Z (Z.of_nat i)))
       <$> seq 0 (nrows t)).

(** [in_window], as a test. *)
Definition in_window_b (shape : nat * nat) (psf_shape : Z * Z) (position : Q * Q)
    (i j : nat) : bool :=
  in_slice (Z.max 0 (edge_min position.1 psf_shape.1),
            Z.min (Z.of_nat shape.1) (edge_max position.1 psf_shape.1)) i &&
  in_slice (Z.max 0 (edge_min position.2 psf_shape.2),
            Z.min (Z.of_nat shape.2) (edge_max position.2 psf_shape.2)) j.

(** The attribute values [a] with the position and the flux of a source. *)
Definition psf_source_attrs (a : gmap string Q) (x y f : Q) : gmap string Q :=
  <["flux" := f]> (<["y_0" := y]> (<["x_0" := x]> a)).

(** The value accumulated at the pixel [(i, j)], from [start], by the sources
    of the rows [rows] of a table whose position and flux columns are named
    [cx], [cy] and [cf]: each source whose clipped window holds the pixel adds
    the model value at [x = j], [y = i]. *)
Definition psf_sum (m : Model) (shape : nat * nat) (psf_shape : Z * Z)
    (t : Table) (cx cy cf : string) (rows : list nat) (start : Q) (i j : nat) : Q :=
  foldl
    (λ acc k,
       match row_value t k cx, row_value t k cy, row_value t k cf with
       | Some x, Some y, Some f =>
           if in_window_b shape psf_shape (y, x) i j then
             (acc + from_option id 0
                      (evaluate m (psf_source_attrs (attrs m) x y f)
                         (inject_Z (Z.of_nat j)) (inject_Z (Z.of_nat i))))%Q
           else acc
       | _, _, _ => acc
       end)
    start rows.

(** * Properties *)

(** ** Which attributes a computation overwrites *)

Lemma modifies_only_refl ps m : modifies_only ps m m.
Proof. by repeat split. Qed.

Lemma modifies_only_trans ps m1 m2 m3 :
  modifies_only ps m1 m2 → modifies_only ps m2 m3 → modifies_only ps m1 m3.
Proof.
  intros (? & ? & ? & ? & ? & H12) (? & ? & ? & ? & ? & H23).
  repeat split; try congruence.
  intros k Hk. rewrite H23, H12; done.
Qed.

Lemma model_eq (m m' : Model) :
  modifies_only [] m m' → m' = m.
Proof.
  destruct m, m'. intros (? & ? & ? & ? & ? & Hattrs); simpl in *. subst.
  f_equal. apply map_eq. intros k. apply Hattrs. apply not_elem_of_nil.
Qed.

Lemma touches_only_ret {A} ps (a : A) : touches_only ps (ret a).
Proof. intros m. apply modifies_only_refl. Qed.

Lemma touches_only_raise {A} ps e : touches_only ps (@raise A e).
Proof. intros m. apply modifies_only_refl. Qed.

Lemma touches_only_lift_option {A} ps e (o : option A) :
  touches_only ps (lift_option e o).
Proof. destruct o; [apply touches_only_ret | apply touches_only_raise]. Qed.

Lemma touches_only_lift_result {A} ps (r : result A) :
  touches_only ps (lift_result r).
Proof. intros m. apply modifies_only_refl. Qed.

Lemma touches_only_get_model ps : touches_only ps get_model.
Proof. intros m. apply modifies_only_refl. Qed.

Lemma touches_only_setattr ps p v : p ∈ ps → touches_only ps (do_setattr p v).
Proof.
  intros Hp m. repeat split. intros k Hk. simpl.
  apply lookup_insert_ne. intros ->. done.
Qed.

Lemma touches_only_bind {A B} ps (c : M A) (k : A → M B) :
  touches_only ps c → (∀ a, touches_only ps (k a)) → touches_only ps (bind c k).
Proof.
  intros Hc Hk m. unfold bind. specialize (Hc m).
  destruct (c m) as [m1 [a | e]]; simpl in *; [| done].
  eapply modifies_only_trans; [exact Hc | apply Hk].
Qed.

Lemma touches_only_for_each {A} ps (l : list A) (body : A → M unit) :
  (∀ x, x ∈ l → touches_only ps (body x)) → touches_only ps (for_each l body).
Proof.
  induction l as [| x l IH]; intros Hbody; simpl.
  - apply touches_only_ret.
  - apply touches_only_bind.
    + apply Hbody. left.
    + intros _. apply IH. intros y Hy. apply Hbody. by right.
Qed.

Lemma touches_only_fold_each {A S} ps (l : list A) (body : A → S → M S) s :
  (∀ x s, touches_only ps (body x s)) → touches_only ps (fold_each l body s).
Proof.
  intros Hbody. revert s. induction l as [| x l IH]; intros s; simpl.
  - apply touches_only_ret.
  - apply touches_only_bind; [apply Hbody | intros s'; apply IH].
Qed.

Lemma touches_only_set_source_params t ps i :
  touches_only ps (set_source_params t ps i).
Proof.
  apply touches_only_for_each. intros p Hp.
  apply touches_only_bind; [apply touches_only_lift_option |].
  intros v. by apply touches_only_setattr.
Qed.

(** ** Saving and restoring parameters *)

Lemma save_params_spec m ps init :
  save_params m ps = Some init →
  ∀ p parameter,
    (p, parameter) ∈ init → parameter = ParameterOf p ∧ is_Some (attrs m !! p).
Proof.
  unfold save_params. intros Hsave. apply mapM_Some_1 in Hsave.
  induction Hsave as [| p [q v] ps init Hp _ IH].
  - intros p parameter Hin. by apply elem_of_nil in Hin.
  - unfold get_parameter in Hp.
    destruct (attrs m !! p) as [w |] eqn:Hw; simplify_eq/=.
    intros p' v' Hin. apply elem_of_cons in Hin as [Heq | Hin]; [| by apply IH].
    simplify_eq. split; [done | by eexists].
Qed.

Lemma save_params_is_Some m t :
  model_wf m → is_Some (save_params m (params_to_set m t)).
Proof.
  intros Hwf. unfold save_params. apply mapM_is_Some_2, Forall_forall.
  intros p Hp. unfold params_to_set in Hp.
  apply list_elem_of_filter in Hp as [Hp _].
  destruct (Hwf p Hp) as [v Hv]. simpl. unfold get_parameter. rewrite Hv.
  by eexists.
Qed.

Lemma setattr_same m p v : attrs m !! p = Some v → setattr m p v = m.
Proof.
  intros Hv. destruct m. unfold setattr. simpl in *. f_equal.
  by apply insert_id.
Qed.

(** Assigning to each parameter the model's own object for it changes
    nothing. *)
Lemma restore_params_same init m :
  (∀ p parameter,
     (p, parameter) ∈ init →
     parameter = ParameterOf p ∧ is_Some (attrs m !! p)) →
  restore_params init m = (m, Ok tt).
Proof.
  unfold restore_params.
  induction init as [| [p v] init IH]; intros Hinit; [done |].
  destruct (Hinit p v) as [-> [w Hw]]; [left |].
  simpl. unfold bind at 1, do_setattr_parameter. simpl. rewrite Hw.
  rewrite setattr_same by done.
  apply IH. intros q parameter Hin. apply Hinit. by right.
Qed.

Lemma keeps_attrs_ret {A} (a : A) : keeps_attrs (ret a).
Proof. by intros m k Hk. Qed.

Lemma keeps_attrs_lift_option {A} e (o : option A) :
  keeps_attrs (lift_option e o).
Proof. intros m k Hk. by destruct o. Qed.

Lemma keeps_attrs_lift_result {A} (r : result A) : keeps_attrs (lift_result r).
Proof. by intros m k Hk. Qed.

Lemma keeps_attrs_get_model : keeps_attrs get_model.
Proof. by intros m k Hk. Qed.

Lemma keeps_attrs_setattr p v : keeps_attrs (do_setattr p v).
Proof.
  intros m k Hk. simpl. destruct (decide (k = p)) as [-> | Hne].
  - rewrite lookup_insert_eq. by eexists.
  - by rewrite lookup_insert_ne.
Qed.

Lemma keeps_attrs_bind {A B} (c : M A) (k : A → M B) :
  keeps_attrs c → (∀ a, keeps_attrs (k a)) → keeps_attrs (bind c k).
Proof.
  intros Hc Hk m q Hq. unfold bind. specialize (Hc m q Hq).
  destruct (c m) as [m1 [a | e]]; simpl in *; [| done].
  by apply Hk.
Qed.

Lemma keeps_attrs_for_each {A} (l : list A) (body : A → M unit) :
  (∀ x, keeps_attrs (body x)) → keeps_attrs (for_each l body).
Proof.
  intros Hbody. induction l as [| x l IH]; simpl.
  - apply keeps_attrs_ret.
  - apply keeps_attrs_bind; [apply Hbody | intros _; apply IH].
Qed.

Lemma keeps_attrs_fold_each {A S} (l : list A) (body : A → S → M S) s :
  (∀ x s, keeps_attrs (body x s)) → keeps_attrs (fold_each l body s).
Proof.
  intros Hbody. revert s. induction l as [| x l IH]; intros s; simpl.
  - apply keeps_attrs_ret.
  - apply keeps_attrs_bind; [apply Hbody | intros s'; apply IH].
Qed.

Lemma keeps_attrs_render_source dm shape t ps oversample i image :
  keeps_attrs (render_source dm shape t ps oversample i image).
Proof.
  unfold render_source. apply keeps_attrs_bind.
  - apply keeps_attrs_for_each. intros p.
    apply keeps_attrs_bind; [apply keeps_attrs_lift_option |].
    intros v. apply keeps_attrs_setattr.
  - intros _. apply keeps_attrs_bind; [apply keeps_attrs_get_model |].
    intros mdl. apply keeps_attrs_bind; [apply keeps_attrs_lift_option |].
    intros values. apply keeps_attrs_lift_result.
Qed.

Lemma touches_only_render_source dm shape t ps oversample i image :
  touches_only ps (render_source dm shape t ps oversample i image).
Proof.
  unfold render_source.
  apply touches_only_bind; [apply touches_only_set_source_params |].
  intros _. apply touches_only_bind; [apply touches_only_get_model |].
  intros mdl. apply touches_only_bind; [apply touches_only_lift_option |].
  intros values. apply touches_only_lift_result.
Qed.

(** The [finally] block of the renderer assigns to each parameter the model's
    own object for it, which changes nothing: a call is its loop over the
    rows, and the model is left as the loop leaves it. *)
Lemma make_model_sources_image_loop
    (discretize_model : Model → Z * Z → Z * Z → Q → option Image)
    shape source_table oversample model :
  model_wf model →
  make_model_sources_image discretize_model shape source_table oversample model
  = fold_each (seq 0 (nrows source_table))
      (render_source discretize_model shape source_table
         (params_to_set model source_table) oversample)
      (zeros shape) model.
Proof.
  intros Hwf. unfold make_model_sources_image, bind at 1. simpl.
  unfold bind at 1.
  destruct (save_params_is_Some model source_table Hwf) as [init Hsave].
  rewrite Hsave. simpl.
  set (ps := params_to_set model source_table) in *.
  unfold try_finally.
  pose proof (keeps_attrs_fold_each (seq 0 (nrows source_table))
    (render_source discretize_model shape source_table ps oversample)
    (zeros shape)
    (keeps_attrs_render_source discretize_model shape source_table ps oversample)
    model) as Hkeeps.
  destruct (fold_each _ _ _ model) as [m1 r] eqn:Hloop. simpl in Hkeeps.
  rewrite restore_params_same; [done |].
  intros p parameter Hin.
  destruct (save_params_spec _ _ _ Hsave p parameter Hin) as [-> Hsome].
  split; [done | by apply Hkeeps].
Qed.

(** ** The lattice sampler satisfies the sampler contract *)

Lemma separatedb_spec d a b : separatedb d a b = true → separated d a b.
Proof.
  unfold separatedb, separated. intros Hb.
  apply orb_true_iff in Hb as [Hb | Hb]; apply Qle_bool_iff in Hb; auto.
Qed.

Lemma greedy_length d size kept candidates :
  (length (greedy d size kept candidates) ≤ size)%nat.
Proof.
  revert size kept.
  induction candidates as [| c cs IH]; intros size kept; simpl; [lia |].
  destruct size as [| size']; simpl; [lia |].
  destruct (forallb _ kept); simpl.
  - specialize (IH size' (c :: kept)). lia.
  - apply IH.
Qed.

Lemma greedy_Forall (P : Q * Q → Prop) d size kept candidates :
  Forall P candidates → Forall P (greedy d size kept candidates).
Proof.
  intros HP. revert size kept.
  induction HP as [| c cs Hc _ IH]; intros size kept; simpl; [constructor |].
  destruct size as [| size']; [constructor |].
  destruct (forallb _ kept); [constructor |]; auto.
Qed.

Lemma greedy_separated d size kept candidates :
  ForallOrdPairs (separated d) (greedy d size kept candidates) ∧
  Forall (λ c, Forall (λ a, separated d a c) kept) (greedy d size kept candidates).
Proof.
  revert size kept.
  induction candidates as [| c cs IH]; intros size kept; simpl.
  { split; constructor. }
  destruct size as [| size']; [split; constructor |].
  destruct (forallb _ kept) eqn:Hall; [| apply IH].
  destruct (IH size' (c :: kept)) as [Hpairs Hkept].
  split.
  - constructor; [| exact Hpairs].
    eapply List.Forall_impl; [| exact Hkept].
    intros e He. by apply Forall_cons in He as [? _].
  - constructor.
    + apply Forall_forall. intros a Ha.
      apply separatedb_spec.
      rewrite forallb_forall in Hall. apply Hall. by apply list_elem_of_In.
    + eapply List.Forall_impl; [| exact Hkept].
      intros e He. by apply Forall_cons in He as [_ ?].
Qed.

Lemma lattice_in_range xrange yrange :
  Forall (λ xy, in_range xrange xy.1 ∧ in_range yrange xy.2) (lattice xrange yrange).
Proof.
  apply Forall_forall. intros [x y] Hin. unfold lattice in Hin.
  apply list_elem_of_bind in Hin as (j & Hin & Hj).
  apply list_elem_of_fmap in Hin as (i & Heq & Hi).
  apply elem_of_seqZ in Hi, Hj. simplify_eq/=.
  unfold in_range; simpl. rewrite <- !Zle_Qle. lia.
Qed.

Lemma ramp_uniform_length seed low high size :
  length (ramp_uniform seed low high size) = size.
Proof. unfold ramp_uniform. by rewrite length_fmap, length_seq. Qed.

#[export] Instance lattice_sampler : Sampler := {|
  make_random_xycoords := lattice_xycoords;
  rng_uniform := ramp_uniform;
  make_random_xycoords_length size xrange yrange d seed :=
    greedy_length d size [] (lattice xrange yrange);
  make_random_xycoords_range size xrange yrange d seed :=
    greedy_Forall _ d size [] _ (lattice_in_range xrange yrange);
  make_random_xycoords_separated size xrange yrange d seed :=
    proj1 (greedy_separated d size [] (lattice xrange yrange));
  rng_uniform_length := ramp_uniform_length
|}.

(** ** The PSF test-data builder: placement *)

Lemma pixel_iadd_slice_outside data slc values i j :
  ¬ (in_slice slc.1 i = true ∧ in_slice slc.2 j = true) →
  pixel (iadd_slice data slc values) i j = pixel data i j.
Proof.
  intros Hout. unfold pixel, iadd_slice. rewrite list_lookup_imap.
  destruct (data !! i) as [row |]; simpl; [| done].
  destruct (in_slice slc.1 i) eqn:Hi; [| done].
  rewrite list_lookup_imap. destruct (row !! j) as [v |]; simpl; [| done].
  destruct (in_slice slc.2 j) eqn:Hj; [| done].
  exfalso. by apply Hout.
Qed.

Lemma overlap_slices_window shape psf_shape position slc i j :
  overlap_slices shape psf_shape position = Ok slc →
  in_slice slc.1 i = true ∧ in_slice slc.2 j = true ↔
  in_window shape psf_shape position i j.
Proof.
  unfold overlap_slices, in_window, in_slice. intros Hslc.
  repeat case_match; simplify_eq/=.
  rewrite !andb_true_iff, !Z.leb_le, !Z.ltb_lt. done.
Qed.

Lemma pixel_zeros shape i j :
  (i < shape.1)%nat → (j < shape.2)%nat → pixel (zeros shape) i j = Some 0%Q.
Proof.
  intros Hi Hj. unfold pixel, zeros.
  rewrite lookup_replicate_2 by done. simpl. by apply lookup_replicate_2.
Qed.

Lemma bind_ok_inv {A B} (c : M A) (k : A → M B) m m' b :
  bind c k m = (m', Ok b) →
  ∃ m1 a, c m = (m1, Ok a) ∧ k a m1 = (m', Ok b).
Proof.
  unfold bind. destruct (c m) as [m1 [a | e]]; intros Hk; [eauto | done].
Qed.

Lemma lift_option_ok_inv {A} e (o : option A) m m' a :
  lift_option e o m = (m', Ok a) → o = Some a ∧ m' = m.
Proof.
  unfold lift_option, ret, raise. destruct o; intros Heq; by simplify_eq.
Qed.

Lemma place_source_inv shape psf_shape sources i data m m' data' :
  place_source shape psf_shape sources i data m = (m', Ok data') →
  ∃ x y slc values,
    row_value sources i "x_0" = Some x ∧
    row_value sources i "y_0" = Some y ∧
    overlap_slices shape psf_shape (y, x) = Ok slc ∧
    data' = iadd_slice data slc values.
Proof.
  unfold place_source. intros Hrun.
  apply bind_ok_inv in Hrun as (m1 & [] & _ & Hrun).
  apply bind_ok_inv in Hrun as (m2 & x & Hx & Hrun).
  apply lift_option_ok_inv in Hx as [Hx ->].
  apply bind_ok_inv in Hrun as (m3 & y & Hy & Hrun).
  apply lift_option_ok_inv in Hy as [Hy ->].
  apply bind_ok_inv in Hrun as (m4 & slc & Hslc & Hrun).
  unfold lift_result in Hslc; simplify_eq.
  apply bind_ok_inv in Hrun as (m5 & mdl & _ & Hrun).
  apply bind_ok_inv in Hrun as (m6 & values & _ & Hrun).
  unfold ret in Hrun; simplify_eq.
  by exists x, y, slc, values.
Qed.

Lemma place_sources_outside shape psf_shape sources l i j :
  (∀ k x y, k ∈ l →
     row_value sources k "x_0" = Some x → row_value sources k "y_0" = Some y →
     ¬ in_window shape psf_shape (y, x) i j) →
  ∀ data m m' data',
    fold_each l (place_source shape psf_shape sources) data m = (m', Ok data') →
    pixel data' i j = pixel data i j.
Proof.
  induction l as [| k l IH]; intros Hout data m m' data' Hrun; simpl in Hrun.
  - unfold ret in Hrun. by simplify_eq.
  - apply bind_ok_inv in Hrun as (m1 & data1 & Hstep & Hrun).
    erewrite IH; [| | exact Hrun].
    2: { intros k' x y Hk'. apply Hout. by right. }
    apply place_source_inv in Hstep as (x & y & slc & values & Hx & Hy & Hslc & ->).
    apply pixel_iadd_slice_outside.
    rewrite (overlap_slices_window _ _ _ _ _ _ Hslc).
    eapply Hout; [left | done | done].
Qed.

(** ** The table of sources *)

Lemma sources_table_ok x y flux :
  length y = length x → length flux = length x →
  sources_table x y flux = Ok [("x_0", x); ("y_0", y); ("flux", flux)].
Proof.
  intros Hy Hf. unfold sources_table, setitem; simpl.
  rewrite decide_True by done. simpl.
  rewrite decide_True by done. done.
Qed.

Section PSFDataProperties.

Context `{Sampler}.

Lemma source_xycoords_length shape psf_shape nsources min_separation seed border :
  (length (source_xycoords shape psf_shape nsources min_separation seed border)
     ≤ nsources)%nat.
Proof. unfold source_xycoords. simpl. apply make_random_xycoords_length. Qed.

Lemma realized_flux_length seed (flux_range : Q * Q) nsources (xycoords : list (Q * Q)) :
  (length xycoords ≤ nsources)%nat →
  length (take (length xycoords.*1)
            (rng_uniform seed flux_range.1 flux_range.2 nsources))
    = length xycoords.
Proof.
  intros Hle. rewrite length_take, rng_uniform_length, length_fmap. lia.
Qed.

(** What a successful run of [make_test_psf_data] went through. *)
Lemma make_test_psf_data_inv shape psf_shape nsources flux_range min_separation
    seed border_size psf_model psf_model' ws data sources :
  make_test_psf_data shape psf_shape nsources flux_range min_separation seed
    border_size psf_model = (psf_model', (ws, Ok (data, sources))) →
  ∃ window_shape,
    let xycoords :=
      source_xycoords shape window_shape nsources min_separation seed border_size in
    let flux :=
      take (length xycoords) (rng_uniform seed flux_range.1 flux_range.2 nsources) in
    _define_psf_shape psf_model psf_shape = (ws, Ok window_shape) ∧
    sources = [("x", xycoords.*1); ("y", xycoords.*2); ("flux", flux)] ∧
    fold_each (seq 0 (length xycoords))
      (place_source shape window_shape
         [("x_0", xycoords.*1); ("y_0", xycoords.*2); ("flux", flux)])
      (zeros shape) psf_model = (psf_model', Ok data).
Proof.
  unfold make_test_psf_data. intros Hrun.
  destruct (_define_psf_shape psf_model psf_shape) as [ws' [w | e]];
    [| by simplify_eq].
  exists w. simpl.
  set (xycoords := source_xycoords shape w nsources min_separation seed border_size) in *.
  pose proof (source_xycoords_length shape w nsources min_separation seed
    border_size) as Hlen. fold xycoords in Hlen.
  pose proof (realized_flux_length seed flux_range nsources xycoords Hlen) as Hflux.
  rewrite sources_table_ok in Hrun.
  2: { by rewrite !length_fmap. }
  2: { by rewrite Hflux, length_fmap. }
  simpl in Hrun. rewrite !length_fmap in Hrun.
  destruct (fold_each _ _ _ psf_model) as [m1 [d1 | e]] eqn:Hloop;
    simplify_eq.
  done.
Qed.

End PSFDataProperties.

(** ** The placement loop succeeds on well-behaved inputs *)

Lemma call_model_total m grid :
  (∀ a x y, is_Some (evaluate m a x y)) → is_Some (call_model m grid).
Proof.
  intros Htotal. unfold call_model.
  apply mapM_is_Some_2, Forall_forall. intros row _. simpl.
  apply mapM_is_Some_2, Forall_forall. intros xy _. simpl. apply Htotal.
Qed.

Lemma place_source_ok shape psf_shape sources i data m x y f :
  row_value sources i "x_0" = Some x →
  row_value sources i "y_0" = Some y →
  row_value sources i "flux" = Some f →
  is_ok (overlap_slices shape psf_shape (y, x)) = true →
  (∀ a x y, is_Some (evaluate m a x y)) →
  ∃ m' data',
    place_source shape psf_shape sources i data m = (m', Ok data') ∧
    evaluate m' = evaluate m.
Proof.
  intros Hx Hy Hf Hslc Htotal.
  unfold place_source, set_source_params. simpl.
  unfold bind at 1. unfold bind at 1. rewrite Hx. simpl.
  unfold bind at 1. unfold bind at 1. rewrite Hy. simpl.
  unfold bind at 1. unfold bind at 1. rewrite Hf. simpl.
  unfold bind at 1. simpl.
  unfold bind at 1. simpl.
  destruct (overlap_slices shape psf_shape (y, x)) as [slc |]; [| done].
  unfold bind at 1. simpl. unfold bind at 1. simpl.
  set (m1 := setattr _ "flux" f).
  destruct (call_model_total m1 (mgrid slc)) as [values Hvalues]; [done |].
  unfold bind. rewrite Hvalues. simpl. eauto.
Qed.

Lemma place_sources_ok shape psf_shape sources l :
  (∀ k, k ∈ l → ∃ x y f,
     row_value sources k "x_0" = Some x ∧
     row_value sources k "y_0" = Some y ∧
     row_value sources k "flux" = Some f ∧
     is_ok (overlap_slices shape psf_shape (y, x)) = true) →
  ∀ data m,
    (∀ a x y, is_Some (evaluate m a x y)) →
    ∃ m' data',
      fold_each l (place_source shape psf_shape sources) data m = (m', Ok data').
Proof.
  induction l as [| k l IH]; intros Hrows data m Htotal; simpl.
  - by exists m, data.
  - destruct (Hrows k) as (x & y & f & Hx & Hy & Hf & Hslc); [left |].
    destruct (place_source_ok shape psf_shape sources k data m x y f)
      as (m1 & data1 & Hstep & Heval); try done.
    unfold bind. rewrite Hstep.
    apply IH.
    + intros k' Hk'. apply Hrows. by right.
    + intros a x' y'. rewrite Heval. apply Htotal.
Qed.

(** ** The model object after the placement loop *)

Lemma place_source_model shape psf_shape sources i data m m' data' :
  place_source shape psf_shape sources i data m = (m', Ok data') →
  ∃ x y f,
    row_value sources i "x_0" = Some x ∧
    row_value sources i "y_0" = Some y ∧
    row_value sources i "flux" = Some f ∧
    m' = setattr (setattr (setattr m "x_0" x) "y_0" y) "flux" f.
Proof.
  unfold place_source, set_source_params. simpl.
  unfold bind, lift_option, lift_result, do_setattr, get_model, ret, raise.
  intros Hrun.
  destruct (row_value sources i "x_0") as [x |]; simpl in Hrun; [| done].
  destruct (row_value sources i "y_0") as [y |]; simpl in Hrun; [| done].
  destruct (row_value sources i "flux") as [f |]; simpl in Hrun; [| done].
  destruct (overlap_slices shape psf_shape (y, x)) as [slc | e];
    simpl in Hrun; [| done].
  destruct (call_model _ (mgrid slc)) as [values |]; simpl in Hrun; [| done].
  exists x, y, f. by simplify_eq.
Qed.

Lemma place_sources_last shape psf_shape sources l k :
  ∀ data m m' data',
    fold_each (l ++ [k]) (place_source shape psf_shape sources) data m
      = (m', Ok data') →
    ∃ x, row_value sources k "x_0" = Some x ∧ getattr m' "x_0" = Some x.
Proof.
  induction l as [| k' l IH]; intros data m m' data' Hrun; simpl in Hrun;
    apply bind_ok_inv in Hrun as (m1 & data1 & Hstep & Hrun).
  - unfold ret in Hrun. simplify_eq.
    apply place_source_model in Hstep as (x & y & f & Hx & _ & _ & ->).
    exists x. split; [done |]. unfold getattr. simpl.
    rewrite !lookup_insert_ne by done. apply lookup_insert_eq.
  - exact (IH _ _ _ _ Hrun).
Qed.

Section PSFDataModel.

Context `{Sampler}.

(** After a successful run that realized at least one source, the caller's
    model is left at the position of the last source. *)
Lemma make_test_psf_data_final_position
    shape psf_shape nsources flux_range min_separation seed border_size
    psf_model psf_model' ws data sources n x :
  make_test_psf_data shape psf_shape nsources flux_range min_separation seed
    border_size psf_model = (psf_model', (ws, Ok (data, sources))) →
  nrows sources = S n →
  row_value sources n "x" = Some x →
  getattr psf_model' "x_0" = Some x.
Proof.
  intros Hrun Hrows Hx.
  apply make_test_psf_data_inv in Hrun as (w & _ & -> & Hloop).
  simpl in Hrows. rewrite length_fmap in Hrows. rewrite Hrows in Hloop.
  rewrite seq_S in Hloop. simpl in Hloop.
  apply place_sources_last in Hloop as (x' & Hx' & Hget).
  assert (x' = x) by (unfold row_value in *; simpl in *; congruence).
  by subst.
Qed.

End PSFDataModel.

(** ** Claims on [make_test_psf_data] *)

Lemma example_run :
  make_test_psf_data (9, 9)%nat (3, 3) 5 (100, 1000)%Q 100 0 None flat_psf
    = (example_model', ([], Ok (example_data, example_sources))).
Proof. vm_compute. reflexivity. Qed.

(** C1 (failing input).  [make_test_psf_data] overwrites [x_0], [y_0] and
    [flux] of the caller's model for every source and never sets them back:
    on the run above the call returns normally and the model it leaves behind
    has [x_0 = 1], where it had [x_0 = 0] on entry. *)
Theorem make_test_psf_data_leaves_model_overwritten :
  let run :=
    make_test_psf_data (9, 9)%nat (3, 3) 5 (100, 1000)%Q 100 0 None flat_psf in
  is_ok run.2.2 = true ∧
  getattr flat_psf "x_0" = Some 0%Q ∧
  getattr run.1 "x_0" = Some 1%Q ∧
  run.1 ≠ flat_psf.
Proof.
  cbv zeta. rewrite example_run. repeat split.
  intros Heq. apply (f_equal (λ m, getattr m "x_0")) in Heq.
  vm_compute in Heq. discriminate.
Qed.

Section PSFDataClaims.

Context `{Sampler}.

(** C4.  When [make_test_psf_data] returns, every pixel of the image that lies
    in none of the sources' windows (the window of the evaluation shape
    centred at the source, clipped to the image bounds) is zero: each source
    is added inside its clipped window only. *)
Theorem make_test_psf_data_zero_outside_windows
    shape psf_shape nsources flux_range min_separation seed border_size
    psf_model psf_model' ws data sources :
  make_test_psf_data shape psf_shape nsources flux_range min_separation seed
    border_size psf_model = (psf_model', (ws, Ok (data, sources))) →
  ∃ window_shape,
    _define_psf_shape psf_model psf_shape = (ws, Ok window_shape) ∧
    ∀ i j,
      (i < shape.1)%nat → (j < shape.2)%nat →
      (∀ k x y,
         row_value sources k "x" = Some x → row_value sources k "y" = Some y →
         ¬ in_window shape window_shape (y, x) i j) →
      pixel data i j = Some 0%Q.
Proof.
  intros Hrun.
  apply make_test_psf_data_inv in Hrun as (w & Hshape & -> & Hloop).
  exists w. split; [done |]. intros i j Hi Hj Hout.
  erewrite place_sources_outside; [by apply pixel_zeros | | exact Hloop].
  intros k x y _ Hx Hy. exact (Hout k x y Hx Hy).
Qed.

(** C6.  Whatever number of positions the sampler realizes (at most
    [nsources], possibly fewer), on a model that evaluates everywhere and
    with every realized window overlapping the image, [make_test_psf_data]
    returns normally, with no other warning than those of
    [_define_psf_shape], and its table has one row per realized position:
    the [x] and [y] of the positions, and the drawn fluxes cut to the number
    of positions. *)
Theorem make_test_psf_data_fewer_sources
    shape psf_shape nsources flux_range min_separation seed border_size
    psf_model ws window_shape :
  _define_psf_shape psf_model psf_shape = (ws, Ok window_shape) →
  (∀ a x y, is_Some (evaluate psf_model a x y)) →
  Forall (λ xy, is_ok (overlap_slices shape window_shape (xy.2, xy.1)) = true)
    (source_xycoords shape window_shape nsources min_separation seed border_size) →
  ∃ psf_model' data sources,
    make_test_psf_data shape psf_shape nsources flux_range min_separation seed
      border_size psf_model = (psf_model', (ws, Ok (data, sources))) ∧
    sources =
      [("x", (source_xycoords shape window_shape nsources min_separation seed
                border_size).*1);
       ("y", (source_xycoords shape window_shape nsources min_separation seed
                border_size).*2);
       ("flux",
        take (length (source_xycoords shape window_shape nsources
                        min_separation seed border_size))
          (rng_uniform seed flux_range.1 flux_range.2 nsources))] ∧
    table_wf sources ∧
    nrows sources =
      length (source_xycoords shape window_shape nsources min_separation seed
                border_size) ∧
    (nrows sources ≤ nsources)%nat.
Proof.
  intros Hshape Htotal Hoverlap.
  set (xycoords := source_xycoords shape window_shape nsources min_separation
    seed border_size) in *.
  pose proof (source_xycoords_length shape window_shape nsources min_separation
    seed border_size) as Hlen. fold xycoords in Hlen.
  pose proof (realized_flux_length seed flux_range nsources xycoords Hlen) as Hflux.
  rewrite length_fmap in Hflux.
  set (flux := take (length xycoords) _) in *.
  destruct (place_sources_ok shape window_shape
    [("x_0", xycoords.*1); ("y_0", xycoords.*2); ("flux", flux)]
    (seq 0 (length xycoords))) with (data := zeros shape) (m := psf_model)
    as (m' & data & Hloop); [| done |].
  { intros k Hk. apply elem_of_seq in Hk as [_ Hk]. simpl in Hk.
    destruct (lookup_lt_is_Some_2 xycoords k Hk) as [[x y] Hxy].
    destruct (lookup_lt_is_Some_2 flux k) as [f Hf]; [by rewrite Hflux |].
    exists x, y, f. unfold row_value. simpl.
    rewrite !list_lookup_fmap, Hxy, Hf. simpl. repeat split.
    rewrite Forall_lookup in Hoverlap. exact (Hoverlap k (x, y) Hxy). }
  exists m', data, [("x", xycoords.*1); ("y", xycoords.*2); ("flux", flux)].
  split; [| split; [done | split; [| split]]].
  - unfold make_test_psf_data. rewrite Hshape. fold xycoords. simpl.
    rewrite length_fmap. fold flux.
    rewrite sources_table_ok by (by rewrite ?length_fmap).
    simpl. rewrite length_fmap, Hloop. done.
  - unfold table_wf. simpl. repeat constructor; simpl;
      by rewrite ?length_fmap.
  - simpl. by rewrite length_fmap.
  - simpl. by rewrite length_fmap.
Qed.

(** What the code does with no [border_size]: the border margin is
    [(size - 1) // 2] of the evaluation window on each axis, and every source
    centre of the returned table lies between that margin and the image size
    minus that margin. *)
Lemma make_test_psf_data_center_region
    shape psf_shape nsources flux_range min_separation seed
    psf_model psf_model' ws data sources :
  make_test_psf_data shape psf_shape nsources flux_range min_separation seed
    None psf_model = (psf_model', (ws, Ok (data, sources))) →
  ∃ window_shape,
    _define_psf_shape psf_model psf_shape = (ws, Ok window_shape) ∧
    border_margin window_shape None
      = ((window_shape.1 - 1) `div` 2, (window_shape.2 - 1) `div` 2) ∧
    ∀ k x y,
      row_value sources k "x" = Some x → row_value sources k "y" = Some y →
      in_range ((window_shape.2 - 1) `div` 2,
                Z.of_nat shape.2 - (window_shape.2 - 1) `div` 2) x ∧
      in_range ((window_shape.1 - 1) `div` 2,
                Z.of_nat shape.1 - (window_shape.1 - 1) `div` 2) y.
Proof.
  intros Hrun.
  apply make_test_psf_data_inv in Hrun as (w & Hshape & -> & _).
  exists w. split; [done |]. split; [done |].
  intros k x y Hx Hy. unfold row_value in Hx, Hy. simpl in Hx, Hy.
  rewrite list_lookup_fmap in Hx, Hy.
  destruct (source_xycoords _ _ _ _ _ _ !! k) as [[x' y'] |] eqn:Hk;
    simplify_eq/=.
  unfold source_xycoords in Hk. simpl in Hk.
  pose proof (make_random_xycoords_range nsources
    ((w.2 - 1) `div` 2, Z.of_nat shape.2 - (w.2 - 1) `div` 2)
    ((w.1 - 1) `div` 2, Z.of_nat shape.1 - (w.1 - 1) `div` 2)
    min_separation seed) as Hrange.
  rewrite Forall_lookup in Hrange. exact (Hrange k (x, y) Hk).
Qed.

End PSFDataClaims.

Lemma make_test_psf_data_zero_outside_windows_witness :
  make_test_psf_data (9, 9)%nat (3, 3) 5 (100, 1000)%Q 100 0 None flat_psf
    = (example_model', ([], Ok (example_data, example_sources))) ∧
  ∃ window_shape,
    _define_psf_shape flat_psf (3, 3) = ([], Ok window_shape) ∧
    ∀ i j,
      (i < 9)%nat → (j < 9)%nat →
      (∀ k x y,
         row_value example_sources k "x" = Some x →
         row_value example_sources k "y" = Some y →
         ¬ in_window (9, 9)%nat window_shape (y, x) i j) →
      pixel example_data i j = Some 0%Q.
Proof.
  split; [vm_compute; reflexivity |].
  apply (@make_test_psf_data_zero_outside_windows lattice_sampler
           (9, 9)%nat (3, 3) 5 (100, 1000)%Q 100 0 None flat_psf example_model').
  vm_compute; reflexivity.
Defined.

Lemma make_test_psf_data_fewer_sources_witness :
  (_define_psf_shape flat_psf (3, 3) = ([], Ok (3, 3)) ∧
   (∀ a x y, is_Some (evaluate flat_psf a x y)) ∧
   Forall (λ xy, is_ok (overlap_slices (9, 9)%nat (3, 3) (xy.2, xy.1)) = true)
     (source_xycoords (9, 9)%nat (3, 3) 5 100 0 None)) ∧
  ∃ psf_model' data sources,
    make_test_psf_data (9, 9)%nat (3, 3) 5 (100, 1000)%Q 100 0 None flat_psf
      = (psf_model', ([], Ok (data, sources))) ∧
    sources =
      [("x", (source_xycoords (9, 9)%nat (3, 3) 5 100 0 None).*1);
       ("y", (source_xycoords (9, 9)%nat (3, 3) 5 100 0 None).*2);
       ("flux",
        take (length (source_xycoords (9, 9)%nat (3, 3) 5 100 0 None))
          (rng_uniform 0 (100, 1000)%Q.1 (100, 1000)%Q.2 5))] ∧
    table_wf sources ∧
    nrows sources = length (source_xycoords (9, 9)%nat (3, 3) 5 100 0 None) ∧
    (nrows sources ≤ 5)%nat.
Proof.
  assert (Hshape : _define_psf_shape flat_psf (3, 3) = ([], Ok (3, 3)))
    by (vm_compute; reflexivity).
  assert (Htotal : ∀ a x y, is_Some (evaluate flat_psf a x y))
    by (intros a x y; simpl; eexists; reflexivity).
  assert (Hoverlap :
    Forall (λ xy, is_ok (overlap_slices (9, 9)%nat (3, 3) (xy.2, xy.1)) = true)
      (source_xycoords (9, 9)%nat (3, 3) 5 100 0 None))
    by (vm_compute; repeat constructor).
  split; [done |].
  exact (@make_test_psf_data_fewer_sources lattice_sampler (9, 9)%nat (3, 3) 5
           (100, 1000)%Q 100 0 None flat_psf [] (3, 3) Hshape Htotal Hoverlap).
Defined.

(** The sampler realizes one position where five were requested. *)
Lemma example_fewer_than_requested :
  length (source_xycoords (9, 9)%nat (3, 3) 5 100 0 None) = 1%nat.
Proof. vm_compute. reflexivity. Qed.

(** C7 (failing input).  With no [border_size] the border margin is
    [(size - 1) // 2] of the evaluation window, not half its size: for a
    4 x 4 window on a 10 x 10 image the margin is 1 where half the size is 2,
    the ranges handed to the position generator are 1 to 9 instead of 2 to 8,
    and the run places a source at [x = 1], inside the border of half the
    window size. *)
Theorem make_test_psf_data_default_border_below_half :
  let run :=
    make_test_psf_data (10, 10)%nat (4, 4) 1 (100, 1000)%Q 1 0 None flat_psf in
  _define_psf_shape flat_psf (4, 4) = ([], Ok (4, 4)) ∧
  border_margin (4, 4) None = (1, 1) ∧
  border_margin (4, 4) None ≠ (4 `div` 2, 4 `div` 2) ∧
  center_ranges (10, 10)%nat (border_margin (4, 4) None) = ((1, 9), (1, 9)) ∧
  ∃ data sources,
    run.2 = ([], Ok (data, sources)) ∧
    row_value sources 0 "x" = Some 1%Q ∧
    ¬ in_range (4 `div` 2, 10 - 4 `div` 2) 1.
Proof.
  cbv zeta.
  split; [vm_compute; reflexivity |].
  split; [vm_compute; reflexivity |].
  split; [vm_compute; discriminate |].
  split; [vm_compute; reflexivity |].
  eexists _, _. split; [vm_compute; reflexivity |].
  split; [vm_compute; reflexivity |].
  unfold in_range. simpl. intros [Hlow _]. vm_compute in Hlow. by apply Hlow.
Qed.

Lemma make_test_psf_data_center_region_witness :
  make_test_psf_data (9, 9)%nat (3, 3) 5 (100, 1000)%Q 100 0 None flat_psf
    = (example_model', ([], Ok (example_data, example_sources))) ∧
  ∃ window_shape,
    _define_psf_shape flat_psf (3, 3) = ([], Ok window_shape) ∧
    border_margin window_shape None
      = ((window_shape.1 - 1) `div` 2, (window_shape.2 - 1) `div` 2) ∧
    ∀ k x y,
      row_value example_sources k "x" = Some x →
      row_value example_sources k "y" = Some y →
      in_range ((window_shape.2 - 1) `div` 2,
                Z.of_nat 9 - (window_shape.2 - 1) `div` 2) x ∧
      in_range ((window_shape.1 - 1) `div` 2,
                Z.of_nat 9 - (window_shape.1 - 1) `div` 2) y.
Proof.
  split; [vm_compute; reflexivity |].
  apply (@make_test_psf_data_center_region lattice_sampler
           (9, 9)%nat (3, 3) 5 (100, 1000)%Q 100 0 flat_psf example_model'
           [] example_data example_sources).
  vm_compute; reflexivity.
Defined.

(** ** Tables and broadcasting *)

Lemma operand_at_broadcast f a b i x y :
  operand_at a i = Some x → operand_at b i = Some y →
  operand_at (broadcast f a b) i = Some (f x y).
Proof.
  destruct a as [p | xs], b as [q | ys]; simpl; intros Ha Hb; simplify_eq.
  - done.
  - by rewrite list_lookup_fmap, Hb.
  - by rewrite list_lookup_fmap, Ha.
  - by rewrite lookup_zip_with, Ha, Hb.
Qed.

Lemma operand_fits_broadcast f n a b :
  operand_fits n a → operand_fits n b → operand_fits n (broadcast f a b).
Proof.
  destruct a as [p | xs], b as [q | ys]; simpl; intros Ha Hb;
    rewrite ?length_fmap, ?length_zip_with; lia.
Qed.

Lemma get_column_Some t name :
  name ∈ colnames t → ∃ c, get_column t name = Some c ∧ (name, c) ∈ t.
Proof.
  induction t as [| [n c] t IH]; simpl; intros Hin.
  - by apply elem_of_nil in Hin.
  - case_decide as Hn.
    + subst. exists c. split; [done | left].
    + apply elem_of_cons in Hin as [-> | Hin]; [done |].
      destruct (IH Hin) as (c' & Hget & Hc'). exists c'. split; [done | by right].
Qed.

Lemma get_column_None t name : name ∉ colnames t → get_column t name = None.
Proof.
  induction t as [| [n c] t IH]; simpl; intros Hnin; [done |].
  rewrite not_elem_of_cons in Hnin. destruct Hnin as [Hne Hnin].
  rewrite decide_False by done. by apply IH.
Qed.

Lemma get_column_app_new t name c :
  name ∉ colnames t → get_column (t ++ [(name, c)]) name = Some c.
Proof.
  induction t as [| [n c'] t IH]; simpl; intros Hnin.
  - by rewrite decide_True.
  - rewrite not_elem_of_cons in Hnin. destruct Hnin as [Hne Hnin].
    rewrite decide_False by done. by apply IH.
Qed.

Lemma column_or_default_fits t name d :
  table_wf t → operand_fits (nrows t) (column_or_default t name d).
Proof.
  intros Hwf. unfold column_or_default. case_decide as Hin; [| done].
  destruct (get_column_Some t name Hin) as (c & -> & Hc). simpl.
  unfold table_wf in Hwf. rewrite Forall_forall in Hwf. exact (Hwf _ Hc).
Qed.

Lemma column_or_default_array t name d :
  name ∈ colnames t →
  ∃ c, column_or_default t name d = Array c ∧ get_column t name = Some c.
Proof.
  intros Hin. unfold column_or_default. rewrite decide_True by done.
  destruct (get_column_Some t name Hin) as (c & Hget & _).
  exists c. by rewrite Hget.
Qed.

Lemma colnames_replace_column t name c :
  colnames (replace_column t name c) = colnames t.
Proof.
  induction t as [| [n c'] t IH]; simpl; [done |].
  case_decide; simpl; [done | by rewrite IH].
Qed.

Lemma get_column_replace_column_ne t name c p :
  p ≠ name → get_column (replace_column t name c) p = get_column t p.
Proof.
  intros Hne. induction t as [| [n c'] t IH]; simpl; [done |].
  destruct (decide (n = name)) as [-> | Hn]; simpl.
  - by rewrite !decide_False by done.
  - case_decide; [done | apply IH].
Qed.

Lemma nrows_replace_column t name c :
  length c = nrows t → nrows (replace_column t name c) = nrows t.
Proof.
  destruct t as [| [n c'] t]; simpl; [done |]. by case_decide.
Qed.

(** ** The renderer reads the parameter columns only *)

Lemma bind_ext {A B} (c1 c2 : M A) (k1 k2 : A → M B) m :
  c1 m = c2 m → (∀ a m', k1 a m' = k2 a m') → bind c1 k1 m = bind c2 k2 m.
Proof.
  intros Hc Hk. unfold bind. rewrite Hc.
  destruct (c2 m) as [m' [a | e]]; [apply Hk | done].
Qed.

Lemma for_each_ext {A} (l : list A) (f g : A → M unit) :
  (∀ x, x ∈ l → ∀ m, f x m = g x m) → ∀ m, for_each l f m = for_each l g m.
Proof.
  induction l as [| x l IH]; intros Hfg m; simpl; [done |].
  apply bind_ext; [apply Hfg; left |].
  intros _ m'. apply IH. intros y Hy. apply Hfg. by right.
Qed.

Lemma fold_each_ext {A S} (l : list A) (f g : A → S → M S) :
  (∀ x s m, f x s m = g x s m) → ∀ s m, fold_each l f s m = fold_each l g s m.
Proof.
  intros Hfg. induction l as [| x l IH]; intros s m; simpl; [done |].
  apply bind_ext; [apply Hfg | intros s' m'; apply IH].
Qed.

Lemma make_model_sources_image_ext dm shape t1 t2 oversample m :
  colnames t1 = colnames t2 →
  nrows t1 = nrows t2 →
  (∀ i p, p ∈ param_names m → row_value t1 i p = row_value t2 i p) →
  make_model_sources_image dm shape t1 oversample m
    = make_model_sources_image dm shape t2 oversample m.
Proof.
  intros Hcols Hrows Hvals. unfold make_model_sources_image.
  unfold bind at 1 3. simpl.
  assert (Hps : params_to_set m t1 = params_to_set m t2)
    by (unfold params_to_set; by rewrite Hcols).
  rewrite Hps. apply bind_ext; [done |]. intros init m'.
  unfold try_finally. rewrite Hrows.
  rewrite (fold_each_ext _
    (render_source dm shape t1 (params_to_set m t2) oversample)
    (render_source dm shape t2 (params_to_set m t2) oversample)); [done |].
  intros i image m0. unfold render_source.
  apply bind_ext; [| done].
  unfold set_source_params. apply for_each_ext. intros p Hp m1.
  apply bind_ext; [| done].
  rewrite Hvals; [done |].
  unfold params_to_set in Hp. by apply list_elem_of_filter in Hp as [Hp _].
Qed.

(** ** The wrappers: conversion, precedence and the caller's table *)

Lemma setitem_new t name c :
  t ≠ [] → length c = nrows t → name ∉ colnames t →
  setitem t name c = Ok (t ++ [(name, c)]).
Proof.
  intros Ht Hlen Hnin. unfold setitem. destruct t as [| nc t]; [done |].
  rewrite decide_True by done. by rewrite decide_False.
Qed.

Lemma colnames_nonempty t name : name ∈ colnames t → t ≠ [].
Proof. intros Hin ->. by apply elem_of_nil in Hin. Qed.

Lemma broadcast_array_l f xs b : ∃ c, broadcast f (Array xs) b = Array c.
Proof. destruct b; simpl; eauto. Qed.

(** What the conversion of a column [name] of the table, combined with a
    factor, stores in a new column [new]. *)
Lemma convert_column f t name new factor :
  table_wf t → name ∈ colnames t → new ∉ colnames t →
  operand_fits (nrows t) factor →
  ∃ c,
    broadcast f (column_or_default t name 0%Q) factor = Array c ∧
    setitem t new (as_column t (broadcast f (column_or_default t name 0%Q) factor))
      = Ok (t ++ [(new, c)]) ∧
    ∀ i x y,
      row_value t i name = Some x → operand_at factor i = Some y →
      row_value (t ++ [(new, c)]) i new = Some (f x y).
Proof.
  intros Hwf Hname Hnew Hfits.
  pose proof (column_or_default_fits t name 0%Q Hwf) as Hfit0.
  destruct (column_or_default_array t name 0%Q Hname) as (xs & Hxs & Hget).
  rewrite Hxs in *.
  destruct (broadcast_array_l f xs factor) as (c & Hc).
  pose proof (operand_fits_broadcast f _ _ _ Hfit0 Hfits) as Hlen.
  rewrite Hc in *. simpl in Hlen.
  exists c. split; [done |]. split.
  - simpl. apply setitem_new; [by eapply colnames_nonempty | done | done].
  - intros i x y Hx Hy. unfold row_value in *.
    rewrite get_column_app_new by done. simpl.
    rewrite Hget in Hx. simpl in Hx.
    change (c !! i) with (operand_at (Array c) i). rewrite <- Hc.
    by apply operand_at_broadcast.
Qed.

Section WrapperProperties.

Variable discretize_model : Model → Z * Z → Z * Z → Q → option Image.
Variable Gaussian2D_evaluate : gmap string Q → Q → Q → option Q.
Variable IntegratedGaussianPRF_evaluate : gmap string Q → Q → Q → option Q.

Local Abbreviation Gaussian := (Gaussian2D Gaussian2D_evaluate 1 1).
Local Abbreviation PRF := (IntegratedGaussianPRF IntegratedGaussianPRF_evaluate 1).

Lemma gaussian_factor_fits t : table_wf t → operand_fits (nrows t) (gaussian_factor t).
Proof.
  intros Hwf. unfold gaussian_factor.
  repeat apply operand_fits_broadcast; try done; by apply column_or_default_fits.
Qed.

Lemma prf_factor_fits t : table_wf t → operand_fits (nrows t) (prf_factor t).
Proof.
  intros Hwf. unfold prf_factor.
  repeat apply operand_fits_broadcast; try done; by apply column_or_default_fits.
Qed.

Lemma gaussian_source_table_convert (σ : store) l t :
  σ !! l = Some t → table_wf t →
  "flux" ∈ colnames t → "amplitude" ∉ colnames t →
  ∃ amplitude,
    gaussian_source_table σ l Gaussian
      = (<[fresh (dom σ) := t ++ [("amplitude", amplitude)]]>
           (<[fresh (dom σ) := t]> σ),
         Ok (t ++ [("amplitude", amplitude)])) ∧
    ∀ i f d,
      row_value t i "flux" = Some f → operand_at (gaussian_factor t) i = Some d →
      row_value (t ++ [("amplitude", amplitude)]) i "amplitude" = Some (f / d)%Q.
Proof.
  intros Hl Hwf Hflux Hamp.
  destruct (convert_column Qdiv t "flux" "amplitude" (gaussian_factor t))
    as (c & _ & Hset & Hrows); try done; [by apply gaussian_factor_fits |].
  exists c. split; [| exact Hrows].
  unfold gaussian_source_table. rewrite Hl.
  rewrite decide_True by done. unfold table_copy.
  change (param_value Gaussian "x_stddev") with 1%Q.
  change (param_value Gaussian "y_stddev") with 1%Q.
  unfold gaussian_amplitude. fold (gaussian_factor t). by rewrite Hset.
Qed.

Lemma prf_source_table_convert (σ : store) l t :
  σ !! l = Some t → table_wf t →
  "flux" ∉ colnames t → "amplitude" ∈ colnames t →
  ∃ flux,
    prf_source_table σ l PRF
      = (<[fresh (dom σ) := t ++ [("flux", flux)]]> (<[fresh (dom σ) := t]> σ),
         Ok (t ++ [("flux", flux)])) ∧
    ∀ i a d,
      row_value t i "amplitude" = Some a → operand_at (prf_factor t) i = Some d →
      row_value (t ++ [("flux", flux)]) i "flux" = Some (a * d)%Q.
Proof.
  intros Hl Hwf Hflux Hamp.
  destruct (convert_column Qmult t "amplitude" "flux" (prf_factor t))
    as (c & _ & Hset & Hrows); try done; [by apply prf_factor_fits |].
  exists c. split; [| exact Hrows].
  unfold prf_source_table. rewrite Hl.
  rewrite decide_True by done. unfold table_copy.
  change (param_value PRF "sigma") with 1%Q.
  unfold prf_flux. fold (prf_factor t). by rewrite Hset.
Qed.

Lemma gaussian_source_table_keep (σ : store) l t :
  σ !! l = Some t → "amplitude" ∈ colnames t →
  gaussian_source_table σ l Gaussian = (σ, Ok t).
Proof.
  intros Hl Hamp. unfold gaussian_source_table. rewrite Hl.
  rewrite decide_False; [done |]. by intros [_ ?].
Qed.

Lemma prf_source_table_keep (σ : store) l t :
  σ !! l = Some t → "flux" ∈ colnames t →
  prf_source_table σ l PRF = (σ, Ok t).
Proof.
  intros Hl Hflux. unfold prf_source_table. rewrite Hl.
  rewrite decide_False; [done |]. by intros [? _].
Qed.

Lemma flux_not_gaussian_param : "flux" ∉ param_names Gaussian.
Proof. simpl. rewrite !not_elem_of_cons. repeat split; try done. apply not_elem_of_nil. Qed.

Lemma amplitude_not_prf_param : "amplitude" ∉ param_names PRF.
Proof. simpl. rewrite !not_elem_of_cons. repeat split; try done. apply not_elem_of_nil. Qed.

(** Replacing the values of a column that is not a model parameter does not
    change what the renderer does. *)
Lemma renderer_ignores_column shape t oversample m name c :
  name ∉ param_names m → length c = nrows t →
  make_model_sources_image discretize_model shape (replace_column t name c)
    oversample m
  = make_model_sources_image discretize_model shape t oversample m.
Proof.
  intros Hname Hlen. apply make_model_sources_image_ext.
  - apply colnames_replace_column.
  - by apply nrows_replace_column.
  - intros i p Hp. unfold row_value.
    rewrite get_column_replace_column_ne; [done |]. by intros ->.
Qed.

Lemma gaussian_converts_flux_holds shape oversample (σ : store) l t :
  σ !! l = Some t → table_wf t →
  "flux" ∈ colnames t → "amplitude" ∉ colnames t →
  gaussian_converts_flux discretize_model Gaussian2D_evaluate shape oversample
    σ l t.
Proof.
  intros Hl Hwf Hflux Hamp.
  destruct (gaussian_source_table_convert σ l t) as (amp & Htable & Hrows);
    try done.
  exists amp. eexists. split.
  - unfold make_gaussian_sources_image. rewrite Htable. done.
  - intros i f sx sy Hf Hsx Hsy.
    exists (f / (two_pi * sx * sy))%Q. split; [| split; [done |]].
    + apply Hrows; [done |]. unfold gaussian_factor.
      apply operand_at_broadcast; [| done].
      by apply operand_at_broadcast.
    + intros Hne. symmetry. rewrite Qmult_comm. by apply Qmult_div_r.
Qed.

Lemma gaussian_prefers_amplitude_holds shape oversample (σ : store) l t :
  σ !! l = Some t → "flux" ∈ colnames t → "amplitude" ∈ colnames t →
  gaussian_prefers_amplitude discretize_model Gaussian2D_evaluate shape
    oversample σ l t.
Proof.
  intros Hl Hflux Hamp.
  assert (Hrun : ∀ (σ0 : store) t0,
    σ0 !! l = Some t0 → "amplitude" ∈ colnames t0 →
    make_gaussian_sources_image discretize_model Gaussian2D_evaluate shape l
      oversample σ0
    = (σ0, (make_model_sources_image discretize_model shape t0 oversample
              Gaussian).2)).
  { intros σ0 t0 Hl0 Hamp0. unfold make_gaussian_sources_image.
    by rewrite (gaussian_source_table_keep σ0 l t0). }
  split; [by apply Hrun |]. split; [| split].
  - unfold params_to_set. apply list_elem_of_filter. split; [| done].
    simpl. left.
  - unfold params_to_set. intros Hin. apply list_elem_of_filter in Hin as [Hin _].
    by apply flux_not_gaussian_param.
  - intros flux' Hlen.
    rewrite (Hrun _ (replace_column t "flux" flux')), (Hrun σ t); try done.
    + simpl. f_equal. apply renderer_ignores_column; [| done].
      apply flux_not_gaussian_param.
    + apply lookup_insert_eq.
    + by rewrite colnames_replace_column.
Qed.

Lemma prf_converts_amplitude_holds shape (σ : store) l t :
  σ !! l = Some t → table_wf t →
  "flux" ∉ colnames t → "amplitude" ∈ colnames t →
  prf_converts_amplitude discretize_model IntegratedGaussianPRF_evaluate shape
    σ l t.
Proof.
  intros Hl Hwf Hflux Hamp.
  destruct (prf_source_table_convert σ l t) as (flux & Htable & Hrows);
    try done.
  exists flux. eexists. split.
  - unfold make_gaussian_prf_sources_image. rewrite Htable. done.
  - intros i a s Ha Hs. apply Hrows; [done |]. unfold prf_factor.
    apply operand_at_broadcast; [| done].
    by apply operand_at_broadcast.
Qed.

Lemma prf_prefers_flux_holds shape (σ : store) l t :
  σ !! l = Some t → "flux" ∈ colnames t → "amplitude" ∈ colnames t →
  prf_prefers_flux discretize_model IntegratedGaussianPRF_evaluate shape σ l t.
Proof.
  intros Hl Hflux Hamp.
  assert (Hrun : ∀ (σ0 : store) t0,
    σ0 !! l = Some t0 → "flux" ∈ colnames t0 →
    make_gaussian_prf_sources_image discretize_model
      IntegratedGaussianPRF_evaluate shape l σ0
    = (σ0, (make_model_sources_image discretize_model shape t0 1 PRF).2)).
  { intros σ0 t0 Hl0 Hflux0. unfold make_gaussian_prf_sources_image.
    by rewrite (prf_source_table_keep σ0 l t0). }
  split; [by apply Hrun |]. split; [| split].
  - unfold params_to_set. apply list_elem_of_filter. split; [| done].
    simpl. left.
  - unfold params_to_set. intros Hin. apply list_elem_of_filter in Hin as [Hin _].
    by apply amplitude_not_prf_param.
  - intros amplitude' Hlen.
    rewrite (Hrun _ (replace_column t "amplitude" amplitude')), (Hrun σ t);
      try done.
    + simpl. f_equal. apply renderer_ignores_column; [| done].
      apply amplitude_not_prf_param.
    + apply lookup_insert_eq.
    + by rewrite colnames_replace_column.
Qed.

End WrapperProperties.

(** ** Claims on the wrappers *)

Section WrapperClaims.

Variable discretize_model : Model → Z * Z → Z * Z → Q → option Image.
Variable Gaussian2D_evaluate : gmap string Q → Q → Q → option Q.
Variable IntegratedGaussianPRF_evaluate : gmap string Q → Q → Q → option Q.

(** C3.  On a table with a flux column and no amplitude column, the Gaussian
    wrapper renders the table extended with [amplitude = flux / (2 pi sigma_x
    sigma_y)], so that [flux = amplitude * 2 pi sigma_x sigma_y]; on a table
    with an amplitude column and no flux column, the PRF wrapper renders the
    table extended with [flux = amplitude * (2 pi sigma sigma)].  On a table
    with both columns, each wrapper renders the table as it is: the Gaussian
    model takes [amplitude] and ignores [flux], the PRF model takes [flux]
    and ignores [amplitude]. *)
Theorem flux_amplitude_conversion_and_precedence shape oversample :
  (∀ (σ : store) l t,
     σ !! l = Some t → table_wf t →
     "flux" ∈ colnames t → "amplitude" ∉ colnames t →
     gaussian_converts_flux discretize_model Gaussian2D_evaluate shape
       oversample σ l t) ∧
  (∀ (σ : store) l t,
     σ !! l = Some t → table_wf t →
     "flux" ∉ colnames t → "amplitude" ∈ colnames t →
     prf_converts_amplitude discretize_model IntegratedGaussianPRF_evaluate
       shape σ l t) ∧
  (∀ (σ : store) l t,
     σ !! l = Some t →
     "flux" ∈ colnames t → "amplitude" ∈ colnames t →
     gaussian_prefers_amplitude discretize_model Gaussian2D_evaluate shape
       oversample σ l t ∧
     prf_prefers_flux discretize_model IntegratedGaussianPRF_evaluate shape
       σ l t).
Proof.
  split; [| split].
  - intros σ l t. apply gaussian_converts_flux_holds.
  - intros σ l t. apply prf_converts_amplitude_holds.
  - intros σ l t Hl Hflux Hamp. split.
    + by apply gaussian_prefers_amplitude_holds.
    + by apply prf_prefers_flux_holds.
Qed.

Lemma gaussian_source_table_frame (σ : store) l model l0 t0 :
  σ !! l0 = Some t0 → (gaussian_source_table σ l model).1 !! l0 = Some t0.
Proof.
  intros Hl0. unfold gaussian_source_table.
  destruct (σ !! l) as [t |]; [| done].
  case_decide; [| done]. unfold table_copy.
  assert (Hfresh : fresh (dom σ) ≠ l0).
  { intros Heq. apply (is_fresh (dom σ)). rewrite Heq.
    apply elem_of_dom. by eexists. }
  destruct (setitem t "amplitude" _) as [t' | e]; simpl;
    by rewrite ?lookup_insert_ne by done.
Qed.

Lemma prf_source_table_frame (σ : store) l model l0 t0 :
  σ !! l0 = Some t0 → (prf_source_table σ l model).1 !! l0 = Some t0.
Proof.
  intros Hl0. unfold prf_source_table.
  destruct (σ !! l) as [t |]; [| done].
  case_decide; [| done]. unfold table_copy.
  assert (Hfresh : fresh (dom σ) ≠ l0).
  { intros Heq. apply (is_fresh (dom σ)). rewrite Heq.
    apply elem_of_dom. by eexists. }
  destruct (setitem t "flux" _) as [t' | e]; simpl;
    by rewrite ?lookup_insert_ne by done.
Qed.

(** C9.  Every table of the store, and the caller's [source_table] among
    them, is the same after a call of either wrapper as before it: a
    conversion column is added to a copy. *)
Theorem wrappers_leave_tables_unchanged shape oversample (σ : store) l l0 t0 :
  σ !! l0 = Some t0 →
  (make_gaussian_sources_image discretize_model Gaussian2D_evaluate shape l
     oversample σ).1 !! l0 = Some t0 ∧
  (make_gaussian_prf_sources_image discretize_model
     IntegratedGaussianPRF_evaluate shape l σ).1 !! l0 = Some t0.
Proof.
  intros Hl0. split.
  - unfold make_gaussian_sources_image.
    pose proof (gaussian_source_table_frame σ l
      (Gaussian2D Gaussian2D_evaluate 1 1) l0 t0 Hl0) as Hframe.
    by destruct (gaussian_source_table _ _ _) as [σ' [t | e]].
  - unfold make_gaussian_prf_sources_image.
    pose proof (prf_source_table_frame σ l
      (IntegratedGaussianPRF IntegratedGaussianPRF_evaluate 1) l0 t0 Hl0)
      as Hframe.
    by destruct (prf_source_table _ _ _) as [σ' [t | e]].
Qed.

End WrapperClaims.

Ltac by_evaluation := apply (bool_decide_unpack _); vm_compute; exact I.

Lemma flux_amplitude_conversion_and_precedence_witness :
  gaussian_converts_flux no_discretize amplitude_evaluate (2, 2)%nat 1
    {[0%nat := flux_only_table]} 0%nat flux_only_table ∧
  prf_converts_amplitude no_discretize flux_evaluate (2, 2)%nat
    {[0%nat := amplitude_only_table]} 0%nat amplitude_only_table ∧
  gaussian_prefers_amplitude no_discretize amplitude_evaluate (2, 2)%nat 1
    {[0%nat := both_table]} 0%nat both_table ∧
  prf_prefers_flux no_discretize flux_evaluate (2, 2)%nat
    {[0%nat := both_table]} 0%nat both_table.
Proof.
  destruct (flux_amplitude_conversion_and_precedence no_discretize
    amplitude_evaluate flux_evaluate (2, 2)%nat 1) as (Hgauss & Hprf & Hboth).
  split; [| split].
  - apply Hgauss; [reflexivity | repeat constructor | by_evaluation..].
  - apply Hprf; [reflexivity | repeat constructor | by_evaluation..].
  - apply Hboth; [reflexivity | by_evaluation..].
Defined.

Lemma wrappers_leave_tables_unchanged_witness :
  ({[0%nat := flux_only_table]} : store) !! 0%nat = Some flux_only_table ∧
  (make_gaussian_sources_image no_discretize amplitude_evaluate (2, 2)%nat
     0%nat 1 {[0%nat := flux_only_table]}).1 !! 0%nat = Some flux_only_table ∧
  (make_gaussian_prf_sources_image no_discretize flux_evaluate (2, 2)%nat
     0%nat {[0%nat := flux_only_table]}).1 !! 0%nat = Some flux_only_table.
Proof.
  split; [reflexivity |].
  apply (wrappers_leave_tables_unchanged no_discretize amplitude_evaluate
           flux_evaluate (2, 2)%nat 1 {[0%nat := flux_only_table]} 0%nat 0%nat).
  reflexivity.
Defined.

(** The Gaussian wrapper really copies on this store: the converted table sits
    at a new location, the caller's table at location 0 has no amplitude
    column. *)
Example gaussian_wrapper_copies :
  let σ' :=
    (make_gaussian_sources_image no_discretize amplitude_evaluate (2, 2)%nat
       0%nat 1 {[0%nat := flux_only_table]}).1 in
  colnames <$> σ' !! 0%nat = Some ["flux"; "x_mean"; "y_mean"; "x_stddev"] ∧
  colnames <$> σ' !! 1%nat
    = Some ["flux"; "x_mean"; "y_mean"; "x_stddev"; "amplitude"].
Proof. vm_compute. split; reflexivity. Qed.

(** ** Claims on the PSF window *)

(** When the requested tuple compares greater than the model shape, the
    window becomes the per-axis minimum and one warning is issued. *)
Lemma define_psf_shape_data_shrinks psf_model psf_shape shape model_shape :
  data_shape psf_model = Some shape →
  data_model_shape shape = Some model_shape →
  oversampling psf_model = None →
  tuple_gt psf_shape model_shape = true →
  _define_psf_shape psf_model psf_shape
    = ([PsfShapeLargerThanModel (min_shape model_shape psf_shape)],
       Ok (min_shape model_shape psf_shape)).
Proof.
  intros Hdata Hshape Hover Hgt. unfold _define_psf_shape.
  rewrite Hdata, Hshape, Hover. simpl. rewrite !Z.div_1_r.
  destruct model_shape as [mh mw]. simpl in *. by rewrite Hgt.
Qed.

(** A window that is smaller than the model on the first axis is returned as
    it is, without a warning, however large it is on the second axis. *)
Lemma define_psf_shape_second_axis_unchecked psf_model h w mh mw :
  data_shape psf_model = Some [mh; mw] →
  oversampling psf_model = None →
  h < mh →
  _define_psf_shape psf_model (h, w) = ([], Ok (h, w)).
Proof.
  intros Hdata Hover Hlt. unfold _define_psf_shape.
  rewrite Hdata, Hover. simpl. rewrite !Z.div_1_r. unfold tuple_gt. simpl.
  replace (mh <? h) with false by (symmetry; apply Z.ltb_ge; lia).
  replace (h =? mh) with false by (symmetry; apply Z.eqb_neq; lia).
  done.
Qed.

(** C5 (failing input).  A 5 x 20 window is requested for a model whose data
    is 10 x 10: the window exceeds the model on the second axis, and
    [_define_psf_shape] returns it unchanged, with no warning; the
    comparison of the two tuples stopped at the first axis. *)
Theorem define_psf_shape_keeps_oversized_window :
  _define_psf_shape (data_psf [10; 10]) (5, 20) = ([], Ok (5, 20)) ∧
  min_shape (10, 10) (5, 20) = (5, 10).
Proof. split; vm_compute; reflexivity. Qed.

(** C10.  When the model has a [data] attribute whose number of dimensions is
    neither 2 nor 3, [_define_psf_shape] raises [UnboundLocalError], and so
    does [make_test_psf_data], which has not touched the model. *)
Theorem define_psf_shape_unbound_model_shape
    psf_model psf_shape (shape : list Z) :
  data_shape psf_model = Some shape →
  length shape ≠ 2%nat → length shape ≠ 3%nat →
  _define_psf_shape psf_model psf_shape = ([], Raise UnboundLocalError) ∧
  ∀ (sampler : Sampler) image_shape nsources flux_range min_separation seed
    border_size,
    make_test_psf_data image_shape psf_shape nsources flux_range min_separation
      seed border_size psf_model
    = (psf_model, ([], Raise UnboundLocalError)).
Proof.
  intros Hdata H2 H3.
  assert (Hshape : _define_psf_shape psf_model psf_shape
                   = ([], Raise UnboundLocalError)).
  { unfold _define_psf_shape. rewrite Hdata.
    destruct shape as [| a [| b [| c [| d shape]]]]; simpl in *; done. }
  split; [done |]. intros. unfold make_test_psf_data. by rewrite Hshape.
Qed.

Lemma define_psf_shape_unbound_model_shape_witness :
  (data_shape (data_psf [5]) = Some [5] ∧
   length [5] ≠ 2%nat ∧ length [5] ≠ 3%nat) ∧
  _define_psf_shape (data_psf [5]) (3, 3) = ([], Raise UnboundLocalError) ∧
  ∀ (sampler : Sampler) image_shape nsources flux_range min_separation seed
    border_size,
    make_test_psf_data image_shape (3, 3) nsources flux_range min_separation
      seed border_size (data_psf [5])
    = (data_psf [5], ([], Raise UnboundLocalError)).
Proof.
  split; [by repeat split |].
  apply (define_psf_shape_unbound_model_shape (data_psf [5]) (3, 3) [5]);
    [reflexivity | simpl; lia | simpl; lia].
Defined.

(** ** Claims on [make_imagehdu] *)

(** C8.  [make_imagehdu] raises exactly when the data is not 2-dimensional;
    for 2-dimensional data it returns the container of the data, with a
    header exactly when a wcs is given (the header of that wcs). *)
Theorem make_imagehdu_spec {WCS Header : Type} (to_header : WCS → Header)
    (data : ndarray) (wcs : option WCS) :
  (make_imagehdu WCS Header to_header data wcs = Raise ValueError
     ↔ ndim data ≠ 2%nat) ∧
  (is_ok (make_imagehdu WCS Header to_header data wcs) = false
     ↔ ndim data ≠ 2%nat) ∧
  (ndim data = 2%nat →
   make_imagehdu WCS Header to_header data wcs
     = Ok {| hdu_data := data; hdu_header := to_header <$> wcs |}) ∧
  (∀ hdu,
     make_imagehdu WCS Header to_header data wcs = Ok hdu →
     hdu_data hdu = data ∧ (is_Some (hdu_header hdu) ↔ is_Some wcs)).
Proof.
  unfold make_imagehdu. case_decide as Hdim; simpl.
  - repeat split; done.
  - repeat split; try done; simplify_eq; simpl; try done.
    + intros [h Hh]. destruct wcs; [eauto | done].
    + intros [w ->]. eauto.
Qed.

Lemma make_imagehdu_spec_witness :
  make_imagehdu unit string (λ _, "WCSAXES") example_image (Some tt)
    = Ok {| hdu_data := example_image; hdu_header := Some "WCSAXES" |} ∧
  make_imagehdu unit string (λ _, "WCSAXES") example_image None
    = Ok {| hdu_data := example_image; hdu_header := None |} ∧
  make_imagehdu unit string (λ _, "WCSAXES") example_cube (Some tt)
    = Raise ValueError.
Proof.
  split; [| split].
  - destruct (make_imagehdu_spec (λ _ : unit, "WCSAXES") example_image (Some tt))
      as (_ & _ & Hok & _).
    apply Hok. reflexivity.
  - destruct (make_imagehdu_spec (λ _ : unit, "WCSAXES") example_image None)
      as (_ & _ & Hok & _).
    apply Hok. reflexivity.
  - destruct (make_imagehdu_spec (λ _ : unit, "WCSAXES") example_cube (Some tt))
      as ([_ Hraise] & _).
    apply Hraise. vm_compute. discriminate.
Defined.

(** ** The parameters of the two coordinate-system builders *)

(** X17.  Both builders are given the same linear part and the same reference
    values: the offset of a 0-indexed pixel from the 1-indexed reference
    pixel, the CD matrix, and the sky position of the reference point. *)
Lemma builders_same_linear_part cos_rho sin_rho shape galactic (x y : Q) :
  let wcs := make_wcs cos_rho sin_rho shape galactic in
  let gwcs := make_gwcs cos_rho sin_rho shape galactic in
  (x + 1 - (crpix wcs).1 == x + (shift_by_crpix gwcs).1)%Q ∧
  (y + 1 - (crpix wcs).2 == y + (shift_by_crpix gwcs).2)%Q ∧
  cd wcs = rotation gwcs ∧
  celestial_rotation gwcs = ((crval wcs).1, (crval wcs).2, 180%Q).
Proof.
  simpl. repeat split; unfold Qdiv; ring.
Qed.

(** In the equatorial frame both use the tangent-plane projection; in the
    galactic frame [make_wcs] names the plate-carree projection while
    [make_gwcs] keeps the tangent-plane one. *)
Lemma builders_projections cos_rho sin_rho shape :
  ctype_projection (ctype (make_wcs cos_rho sin_rho shape false)).1
    = projection (make_gwcs cos_rho sin_rho shape false) ∧
  ctype_projection (ctype (make_wcs cos_rho sin_rho shape true)).1 = "CAR" ∧
  projection (make_gwcs cos_rho sin_rho shape true) = "TAN".
Proof. repeat split. Qed.

(** * Further properties of the code *)

(** ** The renderer: shape of the image, empty tables, failures *)

Lemma image_shape_zeros shape :
  image_shape (zeros shape) = replicate shape.1 shape.2.
Proof.
  unfold image_shape, zeros. rewrite fmap_replicate. by rewrite length_replicate.
Qed.

Lemma image_iadd_shape img values img' :
  image_iadd img values = Ok img' → image_shape img' = image_shape img.
Proof.
  unfold image_iadd. case_decide as Hshape; [| done]. intros [= <-].
  unfold image_shape in *. revert values Hshape.
  induction img as [| row img IH]; intros [| vrow values] Hshape;
    simplify_eq/=; [done |].
  f_equal; [| by apply IH]. rewrite length_zip_with. lia.
Qed.

Lemma fold_each_invariant {A S} (P : S → Prop) (l : list A) (body : A → S → M S) :
  (∀ x s m m' s', body x s m = (m', Ok s') → P s → P s') →
  ∀ s m m' s', fold_each l body s m = (m', Ok s') → P s → P s'.
Proof.
  intros Hbody. induction l as [| x l IH]; intros s m m' s' Hrun Hs;
    simpl in Hrun.
  - unfold ret in Hrun. by simplify_eq.
  - apply bind_ok_inv in Hrun as (m1 & s1 & Hstep & Hrun).
    eapply IH; [exact Hrun |]. eapply Hbody; [exact Hstep | exact Hs].
Qed.

Lemma render_source_shape dm shape t ps oversample i image m m' image' :
  render_source dm shape t ps oversample i image m = (m', Ok image') →
  image_shape image' = image_shape image.
Proof.
  unfold render_source. intros Hrun.
  apply bind_ok_inv in Hrun as (m1 & [] & _ & Hrun).
  apply bind_ok_inv in Hrun as (m2 & mdl & _ & Hrun).
  apply bind_ok_inv in Hrun as (m3 & values & _ & Hrun).
  unfold lift_result in Hrun. simplify_eq. by eapply image_iadd_shape.
Qed.

Lemma try_finally_ok_inv {A} (body : M A) (fin : M unit) m m' a :
  try_finally body fin m = (m', Ok a) → ∃ m1, body m = (m1, Ok a).
Proof.
  unfold try_finally. destruct (body m) as [m1 r].
  destruct (fin m1) as [m2 [[] | e]]; intros Heq; simplify_eq. eauto.
Qed.

(** Whenever the renderer returns, the image has the requested shape. *)
Theorem make_model_sources_image_shape dm shape source_table oversample
    model model' image :
  make_model_sources_image dm shape source_table oversample model
    = (model', Ok image) →
  image_shape image = replicate shape.1 shape.2.
Proof.
  unfold make_model_sources_image. intros Hrun.
  apply bind_ok_inv in Hrun as (m1 & mdl & _ & Hrun).
  apply bind_ok_inv in Hrun as (m2 & init & _ & Hrun).
  apply try_finally_ok_inv in Hrun as (m3 & Hloop).
  rewrite <- image_shape_zeros.
  eapply (fold_each_invariant (λ img, image_shape img = image_shape (zeros shape)));
    [| exact Hloop | done].
  intros i img ma mb img' Hstep Himg.
  apply render_source_shape in Hstep. congruence.
Qed.

(** X4.  A table without rows is rendered as the image of zeros, and the model is
    not touched. *)
Theorem make_model_sources_image_no_rows dm shape source_table oversample model :
  model_wf model → nrows source_table = 0%nat →
  make_model_sources_image dm shape source_table oversample model
    = (model, Ok (zeros shape)).
Proof.
  intros Hwf Hrows.
  rewrite make_model_sources_image_loop by done. by rewrite Hrows.
Qed.

(** ** The renderer: the image is the sum of the sources *)

Lemma row_value_is_Some t i p :
  table_wf t → p ∈ colnames t → (i < nrows t)%nat → is_Some (row_value t i p).
Proof.
  intros Hwf Hp Hi. destruct (get_column_Some t p Hp) as (c & Hget & Hc).
  unfold row_value. rewrite Hget. simpl. apply lookup_lt_is_Some.
  unfold table_wf in Hwf. rewrite Forall_forall in Hwf.
  specialize (Hwf _ Hc). simpl in Hwf. lia.
Qed.

Lemma row_attrs_lookup a t ps i k :
  (∀ p, p ∈ ps → is_Some (row_value t i p)) →
  row_attrs a t ps i !! k = if decide (k ∈ ps) then row_value t i k else a !! k.
Proof.
  unfold row_attrs. revert a.
  induction ps as [| p ps IH]; intros a Hrows.
  - rewrite decide_False by apply not_elem_of_nil. done.
  - simpl. destruct (Hrows p) as [v Hv]; [left |]. rewrite Hv. simpl.
    rewrite IH by (intros q Hq; apply Hrows; by right).
    destruct (decide (k ∈ ps)) as [Hin | Hnin].
    + rewrite decide_True; [done | by right].
    + destruct (decide (k = p)) as [-> | Hne].
      * rewrite decide_True by left. by rewrite lookup_insert_eq.
      * rewrite decide_False.
        -- by apply lookup_insert_ne.
        -- intros Hin. apply elem_of_cons in Hin as [? | ?]; done.
Qed.

Lemma row_attrs_agree a1 a2 t ps i :
  (∀ p, p ∈ ps → is_Some (row_value t i p)) →
  (∀ k, k ∉ ps → a1 !! k = a2 !! k) →
  row_attrs a1 t ps i = row_attrs a2 t ps i.
Proof.
  intros Hrows Hagree. apply map_eq. intros k.
  rewrite !row_attrs_lookup by done. case_decide; [done | by apply Hagree].
Qed.

Lemma set_source_params_run t ps i m :
  (∀ p, p ∈ ps → is_Some (row_value t i p)) →
  set_source_params t ps i m = (with_attrs m (row_attrs (attrs m) t ps i), Ok tt).
Proof.
  unfold set_source_params, row_attrs. revert m.
  induction ps as [| p ps IH]; intros m Hrows; simpl.
  - unfold ret. by destruct m.
  - destruct (Hrows p) as [v Hv]; [left |].
    unfold bind at 1. unfold bind at 1. rewrite Hv. simpl.
    rewrite IH by (intros q Hq; apply Hrows; by right). done.
Qed.

Lemma call_model_pixel m grid values i j row x y :
  call_model m grid = Some values →
  grid !! i = Some row → row !! j = Some (x, y) →
  pixel values i j = evaluate m (attrs m) x y.
Proof.
  unfold call_model, pixel. intros Hcall Hrow Hxy.
  apply mapM_Some_1 in Hcall.
  destruct (Forall2_lookup_l _ _ _ _ _ Hcall Hrow) as (vrow & Hvrow & Hmap).
  rewrite Hvrow. simpl. apply mapM_Some_1 in Hmap.
  destruct (Forall2_lookup_l _ _ _ _ _ Hmap Hxy) as (v & Hv & Heval).
  simpl in Heval. by rewrite Hv.
Qed.

Lemma call_model_shape m grid values :
  call_model m grid = Some values →
  image_shape values = length <$> grid.
Proof.
  unfold call_model, image_shape. intros Hcall. apply mapM_Some_1 in Hcall.
  induction Hcall as [| row vrow grid values Hrow _ IH]; simpl; [done |].
  f_equal; [| done]. symmetry. by eapply length_mapM.
Qed.

Lemma indices_lookup shape i j :
  (i < shape.1)%nat → (j < shape.2)%nat →
  ∃ row,
    indices shape !! i = Some row ∧
    row !! j = Some (inject_Z (Z.of_nat j), inject_Z (Z.of_nat i)).
Proof.
  intros Hi Hj. unfold indices. eexists. split.
  - rewrite list_lookup_fmap, lookup_seqZ_lt by lia. simpl. reflexivity.
  - rewrite list_lookup_fmap, lookup_seqZ_lt by lia. simpl.
    by rewrite !Z.add_0_l.
Qed.

Lemma indices_shape shape : length <$> indices shape = replicate shape.1 shape.2.
Proof.
  unfold indices. rewrite <- list_fmap_compose.
  rewrite (list_fmap_ext _ (λ _, shape.2)).
  2: { intros k z _. simpl. by rewrite length_fmap, length_seqZ, Nat2Z.id. }
  destruct shape as [ny nx]. simpl.
  generalize 0 at 1. induction ny as [| ny IH]; intros start; [done |].
  rewrite Nat2Z.inj_succ, seqZ_cons by lia. simpl. f_equal.
  replace (Z.pred (Z.succ (Z.of_nat ny))) with (Z.of_nat ny) by lia. apply IH.
Qed.

Lemma image_iadd_pixel img values img' i j a b :
  image_iadd img values = Ok img' →
  pixel img i j = Some a → pixel values i j = Some b →
  pixel img' i j = Some (a + b)%Q.
Proof.
  unfold image_iadd. case_decide; [| done]. intros [= <-].
  unfold pixel. intros Ha Hb. rewrite lookup_zip_with.
  destruct (img !! i) as [row |]; simpl in *; [| done].
  destruct (values !! i) as [vrow |]; simpl in *; [| done].
  by rewrite lookup_zip_with, Ha, Hb.
Qed.

Lemma pixel_is_Some img shape i j :
  image_shape img = replicate shape.1 shape.2 →
  (i < shape.1)%nat → (j < shape.2)%nat → is_Some (pixel img i j).
Proof.
  unfold image_shape, pixel. intros Hshape Hi Hj.
  assert (Hrow : (length <$> img) !! i = Some shape.2)
    by (rewrite Hshape; by apply lookup_replicate_2).
  rewrite list_lookup_fmap in Hrow.
  destruct (img !! i) as [row |]; simplify_eq/=.
  apply lookup_lt_is_Some. lia.
Qed.

Lemma modifies_only_with_attrs ps m0 m t i :
  (∀ p, p ∈ ps → is_Some (row_value t i p)) →
  modifies_only ps m0 m →
  modifies_only ps m0 (with_attrs m (row_attrs (attrs m) t ps i)).
Proof.
  intros Hrows (? & ? & ? & ? & ? & Hout). repeat split; try done.
  intros k Hk. simpl. rewrite row_attrs_lookup by done.
  rewrite decide_False by done. by apply Hout.
Qed.

Lemma render_source_run dm shape t oversample k img m0 m :
  (∀ p, p ∈ params_to_set m0 t → is_Some (row_value t k p)) →
  Qeq_bool oversample 1 = true →
  evaluates_everywhere m0 →
  modifies_only (params_to_set m0 t) m0 m →
  image_shape img = replicate shape.1 shape.2 →
  ∃ m' img',
    render_source dm shape t (params_to_set m0 t) oversample k img m
      = (m', Ok img') ∧
    modifies_only (params_to_set m0 t) m0 m' ∧
    image_shape img' = replicate shape.1 shape.2 ∧
    ∀ i j a,
      (i < shape.1)%nat → (j < shape.2)%nat →
      pixel img i j = Some a →
      pixel img' i j
        = Some (a + source_value m0 t k (inject_Z (Z.of_nat j))
                      (inject_Z (Z.of_nat i)))%Q.
Proof.
  intros Hrows Hover Htotal Hm Himg.
  set (ps := params_to_set m0 t) in *.
  set (m1 := with_attrs m (row_attrs (attrs m) t ps k)).
  assert (Hm1 : modifies_only ps m0 m1) by by apply modifies_only_with_attrs.
  assert (Heval : evaluate m1 = evaluate m0) by apply Hm1.
  assert (Hattrs : attrs m1 = row_attrs (attrs m0) t ps k).
  { simpl. apply row_attrs_agree; [done |]. intros q Hq. by apply Hm. }
  destruct (call_model_total m1 (indices shape)) as [values Hvalues].
  { intros a x y. rewrite Heval. apply Htotal. }
  pose proof (call_model_shape _ _ _ Hvalues) as Hvshape.
  rewrite indices_shape in Hvshape.
  assert (Hadd : image_iadd img values = Ok (zip_with (zip_with Qplus) img values)).
  { unfold image_iadd. rewrite decide_True; [done | congruence]. }
  exists m1, (zip_with (zip_with Qplus) img values).
  split; [| split; [done | split]].
  - unfold render_source. unfold bind at 1.
    rewrite set_source_params_run by done. fold m1.
    unfold bind at 1, get_model. rewrite Hover. unfold bind at 1.
    rewrite Hvalues. simpl. unfold lift_result. by rewrite Hadd.
  - apply image_iadd_shape in Hadd. congruence.
  - intros i j a Hi Hj Ha.
    destruct (indices_lookup shape i j Hi Hj) as (row & Hrow & Hxy).
    pose proof (call_model_pixel _ _ _ _ _ _ _ _ Hvalues Hrow Hxy) as Hpix.
    rewrite Heval, Hattrs in Hpix.
    destruct (Htotal (row_attrs (attrs m0) t ps k) (inject_Z (Z.of_nat j))
                (inject_Z (Z.of_nat i))) as [v Hv].
    rewrite Hv in Hpix.
    rewrite (image_iadd_pixel _ _ _ _ _ _ _ Hadd Ha Hpix).
    unfold source_value. fold ps. by rewrite Hv.
Qed.

Lemma render_sources_run dm shape t oversample m0 rows :
  (∀ k p, k ∈ rows → p ∈ params_to_set m0 t → is_Some (row_value t k p)) →
  Qeq_bool oversample 1 = true →
  evaluates_everywhere m0 →
  ∀ img m,
    modifies_only (params_to_set m0 t) m0 m →
    image_shape img = replicate shape.1 shape.2 →
    ∃ m' img',
      fold_each rows
        (render_source dm shape t (params_to_set m0 t) oversample) img m
        = (m', Ok img') ∧
      ∀ i j a,
        (i < shape.1)%nat → (j < shape.2)%nat →
        pixel img i j = Some a →
        pixel img' i j
          = Some (foldl Qplus a
                    ((λ k, source_value m0 t k (inject_Z (Z.of_nat j))
                             (inject_Z (Z.of_nat i))) <$> rows)).
Proof.
  intros Hrows Hover Htotal.
  induction rows as [| k rows IH]; intros img m Hm Himg; simpl.
  - exists m, img. split; [done |]. by intros i j a _ _ Ha.
  - destruct (render_source_run dm shape t oversample k img m0 m)
      as (m1 & img1 & Hstep & Hm1 & Himg1 & Hpix1); try done.
    { intros p Hp. apply Hrows; [left | done]. }
    destruct (IH (λ k' p Hk', Hrows k' p (list_elem_of_further _ _ _ Hk')) img1 m1)
      as (m' & img' & Hloop & Hpix); try done.
    exists m', img'. split.
    + unfold bind. by rewrite Hstep.
    + intros i j a Hi Hj Ha. apply Hpix; [done | done |]. by apply Hpix1.
Qed.

(** With a model that evaluates everywhere and no oversampling, the renderer
    returns, and every pixel [(i, j)] of the image is the sum over the rows
    of the model value at [x = j], [y = i] with the parameters of the row. *)
Theorem make_model_sources_image_sum dm shape source_table oversample model :
  model_wf model → table_wf source_table →
  Qeq_bool oversample 1 = true →
  evaluates_everywhere model →
  ∃ image,
    (make_model_sources_image dm shape source_table oversample model).2
      = Ok image ∧
    ∀ i j,
      (i < shape.1)%nat → (j < shape.2)%nat →
      pixel image i j
        = Some (foldl Qplus 0%Q
                  ((λ k, source_value model source_table k
                           (inject_Z (Z.of_nat j)) (inject_Z (Z.of_nat i)))
                     <$> seq 0 (nrows source_table))).
Proof.
  intros Hwf Htable Hover Htotal.
  assert (Hrows : ∀ k p,
    k ∈ seq 0 (nrows source_table) → p ∈ params_to_set model source_table →
    is_Some (row_value source_table k p)).
  { intros k p Hk Hp. apply elem_of_seq in Hk as [_ Hk].
    apply row_value_is_Some; [done | | lia].
    unfold params_to_set in Hp. by apply list_elem_of_filter in Hp as [_ Hp]. }
  destruct (render_sources_run dm shape source_table oversample model
              (seq 0 (nrows source_table)) Hrows Hover Htotal (zeros shape) model
              (modifies_only_refl _ _) (image_shape_zeros shape))
    as (m1 & image & Hloop & Hpix).
  exists image. split.
  - rewrite make_model_sources_image_loop by done. by rewrite Hloop.
  - intros i j Hi Hj. apply Hpix; [done | done |]. by apply pixel_zeros.
Qed.

(** ** The renderer: the model after the call *)

Lemma fold_each_app {A S} (l1 l2 : list A) (body : A → S → M S) s m :
  fold_each (l1 ++ l2) body s m
  = bind (fold_each l1 body s) (λ s', fold_each l2 body s') m.
Proof.
  revert s m. induction l1 as [| x l1 IH]; intros s m; simpl; [done |].
  unfold bind in *. destruct (body x s m) as [m1 [s1 | e]]; [| done].
  apply IH.
Qed.

Lemma with_attrs_modifies_only ps m0 m a :
  modifies_only ps m0 m → with_attrs m a = with_attrs m0 a.
Proof.
  intros (Hn & He & Hd & Hb & Ho & _). unfold with_attrs.
  by rewrite Hn, He, Hd, Hb, Ho.
Qed.

(** A row that is rendered leaves the model with the parameters of that
    row. *)
Lemma render_source_model dm shape t oversample k img m0 m m' r :
  (∀ p, p ∈ params_to_set m0 t → is_Some (row_value t k p)) →
  modifies_only (params_to_set m0 t) m0 m →
  render_source dm shape t (params_to_set m0 t) oversample k img m = (m', r) →
  m' = with_attrs m0 (row_attrs (attrs m0) t (params_to_set m0 t) k).
Proof.
  intros Hrows Hm. unfold render_source. unfold bind at 1.
  rewrite set_source_params_run by done.
  unfold bind at 1, get_model. unfold bind at 1.
  set (m1 := with_attrs m _).
  assert (Hm1 : m1 = with_attrs m0
                       (row_attrs (attrs m0) t (params_to_set m0 t) k)).
  { unfold m1. rewrite (with_attrs_modifies_only _ _ _ _ Hm). f_equal.
    apply row_attrs_agree; [done |]. intros q Hq. by apply Hm. }
  clearbody m1.
  destruct (if Qeq_bool oversample 1 then _ else _) as [values |]; simpl;
    unfold lift_result; intros Heq; by simplify_eq.
Qed.

(** ** The renderer: a failing evaluation aborts the whole image *)

Lemma call_model_None m grid i j row x y :
  grid !! i = Some row → row !! j = Some (x, y) →
  evaluate m (attrs m) x y = None →
  call_model m grid = None.
Proof.
  intros Hrow Hxy Heval. unfold call_model.
  apply mapM_None_2, Exists_exists. exists row. split.
  - by eapply list_elem_of_lookup_2.
  - apply mapM_None_2, Exists_exists. exists (x, y). split; [| done].
    by eapply list_elem_of_lookup_2.
Qed.

Lemma render_source_step dm shape t oversample k img m0 m :
  (∀ p, p ∈ params_to_set m0 t → is_Some (row_value t k p)) →
  Qeq_bool oversample 1 = true →
  modifies_only (params_to_set m0 t) m0 m →
  image_shape img = replicate shape.1 shape.2 →
  ∃ m1,
    modifies_only (params_to_set m0 t) m0 m1 ∧
    attrs m1 = row_attrs (attrs m0) t (params_to_set m0 t) k ∧
    ((call_model m1 (indices shape) = None ∧
      render_source dm shape t (params_to_set m0 t) oversample k img m
        = (m1, Raise ModelEvaluationError)) ∨
     (∃ img',
        render_source dm shape t (params_to_set m0 t) oversample k img m
          = (m1, Ok img') ∧
        is_Some (call_model m1 (indices shape)) ∧
        image_shape img' = replicate shape.1 shape.2)).
Proof.
  intros Hrows Hover Hm Himg.
  set (ps := params_to_set m0 t) in *.
  set (m1 := with_attrs m (row_attrs (attrs m) t ps k)).
  assert (Hm1 : modifies_only ps m0 m1) by by apply modifies_only_with_attrs.
  assert (Hattrs : attrs m1 = row_attrs (attrs m0) t ps k).
  { simpl. apply row_attrs_agree; [done |]. intros q Hq. by apply Hm. }
  assert (Hrun : render_source dm shape t ps oversample k img m
    = (m1, match call_model m1 (indices shape) with
           | Some values => image_iadd img values
           | None => Raise ModelEvaluationError
           end)).
  { unfold render_source. unfold bind at 1.
    rewrite set_source_params_run by done. fold m1.
    unfold bind at 1, get_model. rewrite Hover. unfold bind at 1.
    by destruct (call_model m1 (indices shape)). }
  exists m1. split; [done |]. split; [done |].
  destruct (call_model m1 (indices shape)) as [values |] eqn:Hvalues.
  - right. pose proof (call_model_shape _ _ _ Hvalues) as Hvshape.
    rewrite indices_shape in Hvshape.
    assert (Hadd : image_iadd img values
                   = Ok (zip_with (zip_with Qplus) img values)).
    { unfold image_iadd. rewrite decide_True; [done | congruence]. }
    eexists. split; [by rewrite Hrun, Hadd |]. split; [by eexists |].
    apply image_iadd_shape in Hadd. congruence.
  - by left.
Qed.

Lemma render_sources_abort dm shape t oversample m0 rows k i j :
  (∀ k' p, k' ∈ rows → p ∈ params_to_set m0 t → is_Some (row_value t k' p)) →
  Qeq_bool oversample 1 = true →
  k ∈ rows → (i < shape.1)%nat → (j < shape.2)%nat →
  evaluate m0 (row_attrs (attrs m0) t (params_to_set m0 t) k)
    (inject_Z (Z.of_nat j)) (inject_Z (Z.of_nat i)) = None →
  ∀ img m,
    modifies_only (params_to_set m0 t) m0 m →
    image_shape img = replicate shape.1 shape.2 →
    ∃ k',
      k' ∈ rows ∧
      call_model
        (with_attrs m0 (row_attrs (attrs m0) t (params_to_set m0 t) k'))
        (indices shape) = None ∧
      fold_each rows
        (render_source dm shape t (params_to_set m0 t) oversample) img m
      = (with_attrs m0 (row_attrs (attrs m0) t (params_to_set m0 t) k'),
         Raise ModelEvaluationError).
Proof.
  intros Hrows Hover Hk Hi Hj Hfail.
  induction rows as [| k0 rows IH]; intros img m Hm Himg;
    [by apply elem_of_nil in Hk |].
  assert (Hk0 : ∀ p, p ∈ params_to_set m0 t → is_Some (row_value t k0 p))
    by (intros p Hp; apply Hrows; [left | done]).
  simpl. unfold bind.
  destruct (render_source_step dm shape t oversample k0 img m0 m)
    as (m1 & Hm1 & Hattrs & [[Hnone Hstep] | (img' & Hstep & Hsome & Himg')]);
    try done.
  - pose proof (render_source_model _ _ _ _ _ _ _ _ _ _ Hk0 Hm Hstep) as ->.
    exists k0. split; [left |]. split; [done |]. by rewrite Hstep.
  - rewrite Hstep. apply elem_of_cons in Hk as [-> | Hk].
    + exfalso. destruct (indices_lookup shape i j Hi Hj) as (row & Hrow & Hxy).
      assert (Hnone : call_model m1 (indices shape) = None).
      { eapply call_model_None; [exact Hrow | exact Hxy |].
        rewrite Hattrs. destruct Hm1 as (_ & -> & _). exact Hfail. }
      rewrite Hnone in Hsome. by destruct Hsome.
    + destruct (IH (λ k' p Hk', Hrows k' p (list_elem_of_further _ _ _ Hk')) Hk
                  img' m1 Hm1 Himg') as (k' & Hk' & Hnone & Hrun).
      exists k'. split; [by right | done].
Qed.

(** X6.  When the model cannot be evaluated at some pixel with the parameters
    of some row, the renderer returns no image: it raises at the first row
    whose evaluation fails, and the model is left with the parameters of that
    row. *)
Theorem make_model_sources_image_aborts dm shape source_table oversample model
    k i j :
  model_wf model → table_wf source_table →
  Qeq_bool oversample 1 = true →
  (k < nrows source_table)%nat → (i < shape.1)%nat → (j < shape.2)%nat →
  evaluate model
    (row_attrs (attrs model) source_table (params_to_set model source_table) k)
    (inject_Z (Z.of_nat j)) (inject_Z (Z.of_nat i)) = None →
  ∃ k',
    (k' < nrows source_table)%nat ∧
    call_model
      (with_attrs model
         (row_attrs (attrs model) source_table
            (params_to_set model source_table) k'))
      (indices shape) = None ∧
    make_model_sources_image dm shape source_table oversample model
    = (with_attrs model
         (row_attrs (attrs model) source_table
            (params_to_set model source_table) k'),
       Raise ModelEvaluationError).
Proof.
  intros Hwf Htable Hover Hk Hi Hj Hfail.
  assert (Hrows : ∀ k' p,
    k' ∈ seq 0 (nrows source_table) → p ∈ params_to_set model source_table →
    is_Some (row_value source_table k' p)).
  { intros k' p Hk' Hp. apply elem_of_seq in Hk' as [_ Hk'].
    apply row_value_is_Some; [done | | lia].
    unfold params_to_set in Hp. by apply list_elem_of_filter in Hp as [_ Hp]. }
  assert (Hin : k ∈ seq 0 (nrows source_table)) by (apply elem_of_seq; lia).
  destruct (render_sources_abort dm shape source_table oversample model
    (seq 0 (nrows source_table)) k i j Hrows Hover Hin Hi Hj Hfail (zeros shape)
    model (modifies_only_refl _ _) (image_shape_zeros shape))
    as (k' & Hk' & Hnone & Hrun).
  exists k'. split; [apply elem_of_seq in Hk'; lia |]. split; [done |].
  by rewrite make_model_sources_image_loop.
Qed.

(** ** The PSF window: what [_define_psf_shape] returns *)

Lemma min_shape_le model_shape psf_shape :
  (min_shape model_shape psf_shape).1 ≤ psf_shape.1 ∧
  (min_shape model_shape psf_shape).2 ≤ psf_shape.2.
Proof. unfold min_shape. simpl. lia. Qed.

Lemma tuple_gt_min_shape_changes model_shape psf_shape :
  tuple_gt psf_shape model_shape = true →
  min_shape model_shape psf_shape ≠ psf_shape.
Proof.
  destruct model_shape as [mh mw], psf_shape as [h w].
  unfold tuple_gt, min_shape. simpl. intros Hgt Heq.
  apply orb_true_iff in Hgt as [Hgt | Hgt].
  - apply Z.ltb_lt in Hgt. injection Heq as H1 H2. lia.
  - apply andb_true_iff in Hgt as [_ Hgt]. apply Z.ltb_lt in Hgt.
    injection Heq as H1 H2. lia.
Qed.

Lemma tuple_gt_min_shape model_shape psf_shape :
  tuple_gt (min_shape model_shape psf_shape) model_shape = false.
Proof.
  destruct model_shape as [mh mw], psf_shape as [h w].
  unfold tuple_gt, min_shape. simpl.
  apply orb_false_iff. split.
  - apply Z.ltb_ge. lia.
  - apply andb_false_iff. right. apply Z.ltb_ge. lia.
Qed.

(** X7.  The window that [_define_psf_shape] returns is never larger than the
    requested one on any axis; it differs from the requested one exactly when
    a warning is issued, and the single warning then carries the new window. *)
Theorem define_psf_shape_shrinks_only psf_model psf_shape ws window_shape :
  _define_psf_shape psf_model psf_shape = (ws, Ok window_shape) →
  window_shape.1 ≤ psf_shape.1 ∧ window_shape.2 ≤ psf_shape.2 ∧
  ((window_shape = psf_shape ∧ ws = []) ∨
   (window_shape ≠ psf_shape ∧
    (ws = [PsfShapeLargerThanModel window_shape] ∨
     ws = [PsfShapeLargerThanBoundingBox window_shape]))).
Proof.
  unfold _define_psf_shape. intros Hrun.
  repeat case_match; simplify_eq;
    try (split; [lia | split; [lia | by left]]);
    (split; [apply min_shape_le | split; [apply min_shape_le |]]);
    right; (split; [by apply tuple_gt_min_shape_changes | auto]).
Qed.

(** X8.  Calling [_define_psf_shape] on the window it returned gives the same
    window back, without a warning. *)
Theorem define_psf_shape_idempotent psf_model psf_shape ws window_shape :
  _define_psf_shape psf_model psf_shape = (ws, Ok window_shape) →
  _define_psf_shape psf_model window_shape = ([], Ok window_shape).
Proof.
  unfold _define_psf_shape. intros Hrun.
  destruct (data_shape psf_model) as [shape |].
  - destruct (data_model_shape shape) as [model_shape |]; [| done].
    destruct (tuple_gt psf_shape _) eqn:Hgt; simplify_eq.
    + by rewrite tuple_gt_min_shape.
    + by rewrite Hgt.
  - destruct (bounding_box psf_model) as [bbox |]; [| by simplify_eq].
    destruct (bbox_model_shape bbox) as [model_shape | e]; [| done].
    destruct (tuple_gt psf_shape _) eqn:Hgt; simplify_eq.
    + by rewrite tuple_gt_min_shape.
    + by rewrite Hgt.
Qed.

Lemma math_floor_value x v :
  float_is x v → math_floor x = Ok (Qfloor v).
Proof.
  intros (v' & Hv' & Heq). rewrite <- (Qfloor_comp _ _ Heq).
  unfold math_floor. destruct x; try done; by rewrite Hv'.
Qed.

Lemma math_ceil_value x v :
  float_is x v → math_ceil x = Ok (Qceiling v).
Proof.
  intros (v' & Hv' & Heq). rewrite <- (Qceiling_comp _ _ Heq).
  unfold math_ceil. destruct x; try done; by rewrite Hv'.
Qed.

(** X9.  When the four limits of a bounding box are finite and their shifts
    by 0.5 are exact in binary64, the shape derived from the box covers it:
    on each axis it is at least the extent of the box, and less than the
    extent plus two. *)
Theorem bbox_model_shape_covers bbox xl xu yl yu :
  exact_half_shift (x_lower bbox) xl → exact_half_shift (x_upper bbox) xu →
  exact_half_shift (y_lower bbox) yl → exact_half_shift (y_upper bbox) yu →
  ∃ model_shape,
    bbox_model_shape bbox = Ok model_shape ∧
    (yu - yl <= inject_Z model_shape.1)%Q ∧
    (inject_Z model_shape.1 < yu - yl + 2)%Q ∧
    (xu - xl <= inject_Z model_shape.2)%Q ∧
    (inject_Z model_shape.2 < xu - xl + 2)%Q.
Proof.
  intros [_ Hxl] [_ Hxu] [_ Hyl] [_ Hyu].
  unfold bbox_model_shape.
  rewrite (math_floor_value _ _ Hxl), (math_ceil_value _ _ Hxu),
    (math_floor_value _ _ Hyl), (math_ceil_value _ _ Hyu).
  eexists. split; [reflexivity |]. cbn [fst snd].
  pose proof (Qfloor_le (xl + (1 # 2))) as Hxf.
  pose proof (Qlt_floor (xl + (1 # 2))) as Hxf'.
  pose proof (Qle_ceiling (xu + (1 # 2))) as Hxc.
  pose proof (Qceiling_lt (xu + (1 # 2))) as Hxc'.
  pose proof (Qfloor_le (yl + (1 # 2))) as Hyf.
  pose proof (Qlt_floor (yl + (1 # 2))) as Hyf'.
  pose proof (Qle_ceiling (yu + (1 # 2))) as Hyc.
  pose proof (Qceiling_lt (yu + (1 # 2))) as Hyc'.
  unfold Z.sub in *.
  rewrite ?inject_Z_plus, ?inject_Z_opp in *.
  change (inject_Z 1) with 1%Q in *.
  repeat split; lra.
Qed.

(** One unit in the last place below 0.5 the shift rounds up to 1: the
    integer limit is 1, where the exact sum would give 0. *)
Example math_floor_rounded_shift :
  math_floor (float_add (S754_finite false 9007199254740991 (-54)) float_half)
    = Ok 1 ∧
  Qfloor ((9007199254740991 # 2 ^ 54) + (1 # 2)) = 0.
Proof. split; vm_compute; reflexivity. Qed.

(** ** The PSF test-data builder: shape, empty runs, the model, termination *)

Lemma image_shape_iadd_slice data slc values :
  image_shape (iadd_slice data slc values) = image_shape data.
Proof.
  unfold image_shape, iadd_slice. apply list_eq. intros i.
  rewrite !list_lookup_fmap, list_lookup_imap.
  destruct (data !! i) as [row |]; simpl; [| done].
  destruct (in_slice slc.1 i); [| done]. by rewrite length_imap.
Qed.

Lemma touches_only_place_source shape psf_shape sources i data :
  touches_only ["x_0"; "y_0"; "flux"]
    (place_source shape psf_shape sources i data).
Proof.
  unfold place_source.
  apply touches_only_bind; [apply touches_only_set_source_params |].
  intros _. apply touches_only_bind; [apply touches_only_lift_option |].
  intros x. apply touches_only_bind; [apply touches_only_lift_option |].
  intros y. apply touches_only_bind; [apply touches_only_lift_result |].
  intros slc. apply touches_only_bind; [apply touches_only_get_model |].
  intros mdl. apply touches_only_bind; [apply touches_only_lift_option |].
  intros values. apply touches_only_ret.
Qed.

(** The default margin keeps every window on the image: a centre between the
    margin and the size minus the margin, for a window of at least two
    pixels, overlaps the axis. *)
Lemma default_margin_overlaps (size : nat) (n : Z) (c : Q) :
  2 ≤ n →
  in_range ((n - 1) `div` 2, Z.of_nat size - (n - 1) `div` 2) c →
  0 < edge_max c n ∧ edge_min c n < Z.of_nat size.
Proof.
  intros Hn [Hlow Hhigh]. simpl in Hlow, Hhigh.
  assert (Hh : 0 ≤ (n - 1) `div` 2) by (apply Z.div_pos; lia).
  set (h := (n - 1) `div` 2) in *. clearbody h.
  rewrite Zle_Qle in Hh, Hn.
  unfold Z.sub in Hhigh. rewrite inject_Z_plus, inject_Z_opp in Hhigh.
  change (inject_Z 0) with 0%Q in Hh. change (inject_Z 2) with 2%Q in Hn.
  unfold edge_max, edge_min.
  assert (Hhalf : (1 <= inject_Z n / 2)%Q)
    by (apply Qle_shift_div_l; [reflexivity | lra]).
  set (half := (inject_Z n / 2)%Q) in *. clearbody half. split.
  - pose proof (Qle_ceiling (c + half)) as Hceil.
    assert (1 ≤ Qceiling (c + half)); [| lia].
    rewrite Zle_Qle. change (inject_Z 1) with 1%Q. lra.
  - pose proof (Qceiling_lt (c - half)) as Hceil.
    assert (Qceiling (c - half) + - (1) < Z.of_nat size + - (1));
      [| lia].
    rewrite Zlt_Qlt. unfold Z.sub in Hceil.
    rewrite !inject_Z_plus in *.
    change (inject_Z (- (1))) with (- (1))%Q in *. lra.
Qed.

Section PSFDataFurther.

Context `{Sampler}.

(** X10.  Whenever [make_test_psf_data] returns, the image has the requested
    shape. *)
Theorem make_test_psf_data_shape
    shape psf_shape nsources flux_range min_separation seed border_size
    psf_model psf_model' ws data sources :
  make_test_psf_data shape psf_shape nsources flux_range min_separation seed
    border_size psf_model = (psf_model', (ws, Ok (data, sources))) →
  image_shape data = replicate shape.1 shape.2.
Proof.
  intros Hrun.
  apply make_test_psf_data_inv in Hrun as (w & _ & _ & Hloop).
  rewrite <- image_shape_zeros.
  eapply (fold_each_invariant (λ img, image_shape img = image_shape (zeros shape)));
    [| exact Hloop | done].
  intros i img ma mb img' Hstep Himg.
  apply place_source_inv in Hstep as (x & y & slc & values & _ & _ & _ & ->).
  by rewrite image_shape_iadd_slice.
Qed.

(** X11.  With no source requested, the image is zero everywhere, the table has
    its three columns and no row, and the model is not touched. *)
Theorem make_test_psf_data_no_sources
    shape psf_shape flux_range min_separation seed border_size psf_model ws
    window_shape :
  _define_psf_shape psf_model psf_shape = (ws, Ok window_shape) →
  make_test_psf_data shape psf_shape 0 flux_range min_separation seed
    border_size psf_model
  = (psf_model, (ws, Ok (zeros shape, [("x", []); ("y", []); ("flux", [])]))).
Proof.
  intros Hshape. unfold make_test_psf_data. rewrite Hshape.
  pose proof (source_xycoords_length shape window_shape 0 min_separation seed
    border_size) as Hlen.
  destruct (source_xycoords shape window_shape 0 min_separation seed border_size)
    as [| xy xycoords]; [| simpl in Hlen; lia].
  done.
Qed.

(** X12.  Whatever the outcome, [make_test_psf_data] leaves every attribute of the
    model other than [x_0], [y_0] and [flux] as it was. *)
Theorem make_test_psf_data_touches_position_and_flux
    shape psf_shape nsources flux_range min_separation seed border_size
    psf_model :
  modifies_only ["x_0"; "y_0"; "flux"] psf_model
    (make_test_psf_data shape psf_shape nsources flux_range min_separation
       seed border_size psf_model).1.
Proof.
  unfold make_test_psf_data.
  destruct (_define_psf_shape psf_model psf_shape) as [ws [w | e]];
    [| apply modifies_only_refl].
  destruct (sources_table _ _ _) as [sources | e]; [| apply modifies_only_refl].
  pose proof (touches_only_fold_each ["x_0"; "y_0"; "flux"]
    (seq 0 (nrows sources)) (place_source shape w sources) (zeros shape)
    (touches_only_place_source shape w sources) psf_model) as Hloop.
  by destruct (fold_each _ _ _ psf_model) as [m' [data | e]].
Qed.

Lemma make_test_psf_data_runs
    shape psf_shape nsources flux_range min_separation seed border_size
    psf_model ws window_shape :
  _define_psf_shape psf_model psf_shape = (ws, Ok window_shape) →
  evaluates_everywhere psf_model →
  Forall (λ xy, is_ok (overlap_slices shape window_shape (xy.2, xy.1)) = true)
    (source_xycoords shape window_shape nsources min_separation seed border_size) →
  ∃ psf_model' data sources,
    make_test_psf_data shape psf_shape nsources flux_range min_separation seed
      border_size psf_model = (psf_model', (ws, Ok (data, sources))).
Proof.
  intros Hshape Htotal Hoverlap.
  set (xycoords := source_xycoords shape window_shape nsources min_separation
    seed border_size) in *.
  pose proof (source_xycoords_length shape window_shape nsources min_separation
    seed border_size) as Hlen. fold xycoords in Hlen.
  pose proof (realized_flux_length seed flux_range nsources xycoords Hlen) as Hflux.
  rewrite length_fmap in Hflux.
  set (flux := take (length xycoords) _) in *.
  destruct (place_sources_ok shape window_shape
    [("x_0", xycoords.*1); ("y_0", xycoords.*2); ("flux", flux)]
    (seq 0 (length xycoords))) with (data := zeros shape) (m := psf_model)
    as (m' & data & Hloop); [| done |].
  { intros k Hk. apply elem_of_seq in Hk as [_ Hk]. simpl in Hk.
    destruct (lookup_lt_is_Some_2 xycoords k Hk) as [[x y] Hxy].
    destruct (lookup_lt_is_Some_2 flux k) as [f Hf]; [by rewrite Hflux |].
    exists x, y, f. unfold row_value. simpl.
    rewrite !list_lookup_fmap, Hxy, Hf. simpl. repeat split.
    rewrite Forall_lookup in Hoverlap. exact (Hoverlap k (x, y) Hxy). }
  eexists m', data, _.
  unfold make_test_psf_data. rewrite Hshape. fold xycoords. simpl.
  rewrite length_fmap. fold flux.
  rewrite sources_table_ok by (by rewrite ?length_fmap).
  simpl. rewrite length_fmap, Hloop. done.
Qed.

(** X13.  With the default border, a window of at least two pixels on each axis and
    a model that evaluates everywhere, no source falls off the image:
    [make_test_psf_data] returns. *)
Theorem make_test_psf_data_default_border_returns
    shape psf_shape nsources flux_range min_separation seed psf_model ws
    window_shape :
  _define_psf_shape psf_model psf_shape = (ws, Ok window_shape) →
  2 ≤ window_shape.1 → 2 ≤ window_shape.2 →
  evaluates_everywhere psf_model →
  ∃ psf_model' data sources,
    make_test_psf_data shape psf_shape nsources flux_range min_separation seed
      None psf_model = (psf_model', (ws, Ok (data, sources))).
Proof.
  intros Hshape H1 H2 Htotal.
  apply (make_test_psf_data_runs _ _ _ _ _ _ _ _ _ window_shape); try done.
  unfold source_xycoords. simpl.
  eapply List.Forall_impl;
    [| apply (make_random_xycoords_range nsources
                ((window_shape.2 - 1) `div` 2,
                 Z.of_nat shape.2 - (window_shape.2 - 1) `div` 2)
                ((window_shape.1 - 1) `div` 2,
                 Z.of_nat shape.1 - (window_shape.1 - 1) `div` 2)
                min_separation seed)].
  intros [x y] [Hx Hy]. simpl in *.
  destruct (default_margin_overlaps shape.1 window_shape.1 y H1 Hy) as [Hy1 Hy2].
  destruct (default_margin_overlaps shape.2 window_shape.2 x H2 Hx) as [Hx1 Hx2].
  unfold overlap_slices. simpl.
  replace (edge_max y window_shape.1 <=? 0) with false
    by (symmetry; apply Z.leb_gt; lia).
  replace (edge_max x window_shape.2 <=? 0) with false
    by (symmetry; apply Z.leb_gt; lia).
  replace (Z.of_nat shape.1 <=? edge_min y window_shape.1) with false
    by (symmetry; apply Z.leb_gt; lia).
  replace (Z.of_nat shape.2 <=? edge_min x window_shape.2) with false
    by (symmetry; apply Z.leb_gt; lia).
  done.
Qed.

End PSFDataFurther.

(** ** The canned example images *)

Lemma image_add_scalar_shape image c :
  image_shape (image_add_scalar image c) = image_shape image.
Proof.
  unfold image_shape, image_add_scalar. rewrite <- list_fmap_compose.
  apply list_fmap_ext. intros k row _. simpl. by rewrite length_fmap.
Qed.

Lemma image_add_scalar_pixel image c i j v :
  pixel image i j = Some v →
  pixel (image_add_scalar image c) i j = Some (v + c)%Q.
Proof.
  unfold pixel, image_add_scalar. rewrite list_lookup_fmap.
  destruct (image !! i) as [row |]; simpl; [| done].
  rewrite list_lookup_fmap. by intros ->.
Qed.

Lemma gaussian_model_wf Ge x_stddev y_stddev : model_wf (Gaussian2D Ge x_stddev y_stddev).
Proof.
  intros p Hp. simpl in Hp.
  repeat (apply elem_of_cons in Hp as [-> | Hp]; [by eexists |]).
  by apply elem_of_nil in Hp.
Qed.

Section ExampleImagesProperties.

Variable discretize_model : Model → Z * Z → Z * Z → Q → option Image.
Variable Gaussian2D_evaluate : gmap string Q → Q → Q → option Q.
Variable rng_state : Type.
Variable RandomState : Z → rng_state.
Variable rs_uniform : rng_state → Q → Q → nat → list Q * rng_state.
Variable rs_normal : rng_state → Q → Q → nat * nat → Image * rng_state.

(** What the Gaussian wrapper returns for a local table that has an amplitude
    column, with a Gaussian that evaluates everywhere. *)
Lemma gaussian_image_of_amplitude_table shape t :
  (∀ a x y, is_Some (Gaussian2D_evaluate a x y)) →
  table_wf t → "amplitude" ∈ colnames t →
  ∃ image,
    (make_gaussian_sources_image discretize_model Gaussian2D_evaluate shape
       0%nat 1 {[0%nat := t]}).2 = Ok image ∧
    image_shape image = replicate shape.1 shape.2 ∧
    ∀ i j,
      (i < shape.1)%nat → (j < shape.2)%nat →
      pixel image i j
        = Some (sources_sum (Gaussian2D Gaussian2D_evaluate 1 1) t i j).
Proof.
  intros Htotal Hwf Hamp.
  destruct (make_model_sources_image_sum discretize_model shape t 1
    (Gaussian2D Gaussian2D_evaluate 1 1)) as (image & Hrun & Hpix); try done.
  { apply gaussian_model_wf. }
  exists image. split; [| split; [| exact Hpix]].
  - unfold make_gaussian_sources_image.
    rewrite (gaussian_source_table_keep Gaussian2D_evaluate _ _ t);
      [| apply lookup_singleton_eq | done].
    by rewrite Hrun.
  - eapply make_model_sources_image_shape. rewrite <- Hrun.
    apply surjective_pairing.
Qed.

(** X15.  [make_4gaussians_image(noise=False)] returns a 100 x 200 image worth, at
    every pixel, the sum of the four Gaussians of its table plus 5; with
    noise of the requested shape, [make_4gaussians_image(noise=True)] returns
    that image plus the noise. *)
Theorem make_4gaussians_image_pixels :
  (∀ a x y, is_Some (Gaussian2D_evaluate a x y)) →
  ∃ base,
    make_4gaussians_image discretize_model Gaussian2D_evaluate rng_state
      RandomState rs_normal false = Ok base ∧
    image_shape base = replicate 100 200%nat ∧
    (∀ i j,
       (i < 100)%nat → (j < 200)%nat →
       pixel base i j
         = Some (sources_sum (Gaussian2D Gaussian2D_evaluate 1 1)
                   table_4gaussians i j + 5)%Q) ∧
    (image_shape (rs_normal (RandomState 12345) 0 5 (100, 200)%nat).1
       = replicate 100 200%nat →
     make_4gaussians_image discretize_model Gaussian2D_evaluate rng_state
       RandomState rs_normal true
     = image_iadd base (rs_normal (RandomState 12345) 0 5 (100, 200)%nat).1 ∧
     is_ok (image_iadd base (rs_normal (RandomState 12345) 0 5 (100, 200)%nat).1)
       = true).
Proof.
  intros Htotal.
  destruct (gaussian_image_of_amplitude_table (100, 200)%nat table_4gaussians)
    as (image & Hrun & Hshape & Hpix); [done | repeat constructor | left |].
  assert (Htable : qtable
       [("amplitude", [50; 70; 150; 210]%Q);
        ("x_mean", [160; 25; 150; 90]%Q);
        ("y_mean", [70; 40; 25; 60]%Q);
        ("x_stddev", [152 # 10; 51 # 10; 3; 81 # 10]%Q);
        ("y_stddev", [26 # 10; 25 # 10; 3; 47 # 10]%Q);
        ("theta", radians <$> [145; 20; 0; 60]%Q)] = Ok table_4gaussians)
    by reflexivity.
  exists (image_add_scalar image 5).
  unfold make_4gaussians_image. rewrite Htable. simpl bind_result.
  rewrite Hrun. simpl bind_result.
  split; [done |]. split; [by rewrite image_add_scalar_shape |].
  split.
  - intros i j Hi Hj. apply image_add_scalar_pixel. by apply Hpix.
  - intros Hnoise. split; [done |].
    unfold image_iadd. rewrite decide_True; [done |].
    rewrite image_add_scalar_shape, Hnoise. exact Hshape.
Qed.

Lemma nrows_app t name c : t ≠ [] → nrows (t ++ [(name, c)]) = nrows t.
Proof. by destruct t as [| [n c'] t]. Qed.

Lemma setitem_append_wf t name c n :
  table_wf t → (t = [] ∨ nrows t = n) → length c = n → name ∉ colnames t →
  setitem t name c = Ok (t ++ [(name, c)]) ∧
  table_wf (t ++ [(name, c)]) ∧ nrows (t ++ [(name, c)]) = n.
Proof.
  intros Hwf Hrows Hlen Hname. destruct t as [| nc t].
  - simpl. split; [done |]. split; [| done]. by repeat constructor.
  - destruct Hrows as [? | Hrows]; [done |].
    rewrite setitem_new by (done || congruence).
    rewrite nrows_app by done. split; [done |]. split; [| done].
    unfold table_wf. rewrite nrows_app by done.
    apply Forall_app. split; [done |]. repeat constructor.
    change (length c = nrows (nc :: t)). congruence.
Qed.

Hypothesis rs_uniform_length :
  ∀ rng low high size, length (rs_uniform rng low high size).1 = size.

Lemma random_columns_ok params n :
  ∀ rng sources,
    NoDup (colnames sources ++ params.*1) →
    table_wf sources → (sources = [] ∨ nrows sources = n) →
    ∃ t,
      random_columns rng_state rs_uniform rng params n sources = Ok t ∧
      colnames t = colnames sources ++ params.*1 ∧
      table_wf t ∧ (t = [] ∨ nrows t = n).
Proof.
  induction params as [| [name [lower upper]] params IH];
    intros rng sources Hnodup Hwf Hrows; simpl.
  - exists sources. by rewrite app_nil_r.
  - pose proof (rs_uniform_length rng lower upper n) as Hlen.
    destruct (rs_uniform rng lower upper n) as [column rng']. simpl in Hlen.
    assert (Hname : name ∉ colnames sources).
    { apply NoDup_app in Hnodup as (_ & Hdisjoint & _).
      intros Hin. apply (Hdisjoint name Hin). left. }
    destruct (setitem_append_wf sources name column n Hwf Hrows Hlen Hname)
      as (-> & Hwf' & Hrows').
    simpl. destruct (IH rng' (sources ++ [(name, column)])) as (t & Ht & Hcols & Hwft & Hrowst).
    + unfold colnames. rewrite fmap_app. simpl. by rewrite <- app_assoc.
    + done.
    + by right.
    + exists t. split; [done |]. split; [| done].
      rewrite Hcols. unfold colnames. rewrite fmap_app. simpl.
      by rewrite <- app_assoc.
Qed.

Lemma getitem_wf t name :
  table_wf t → name ∈ colnames t →
  ∃ c, getitem t name = Ok c ∧ get_column t name = Some c ∧ length c = nrows t.
Proof.
  intros Hwf Hname. destruct (get_column_Some t name Hname) as (c & Hget & Hc).
  exists c. unfold getitem. rewrite Hget. split; [done |]. split; [done |].
  unfold table_wf in Hwf. rewrite Forall_forall in Hwf. exact (Hwf _ Hc).
Qed.

(** The table of [make_100gaussians_image]: seven columns of 100 rows, the
    amplitude of each row being its flux divided by [2 pi sigma_x sigma_y]. *)
Lemma sources_100gaussians_table :
  ∃ sources,
    sources_100gaussians rng_state RandomState rs_uniform = Ok sources ∧
    colnames sources
      = ["flux"; "x_mean"; "y_mean"; "x_stddev"; "y_stddev"; "theta";
         "amplitude"] ∧
    table_wf sources ∧ nrows sources = 100%nat ∧
    ∀ k f sx sy,
      row_value sources k "flux" = Some f →
      row_value sources k "x_stddev" = Some sx →
      row_value sources k "y_stddev" = Some sy →
      row_value sources k "amplitude" = Some (f / (two_pi * sx * sy))%Q.
Proof.
  destruct (random_columns_ok params_100gaussians 100 (RandomState 12345) [])
    as (t & Ht & Hcols & Hwf & Hrows).
  { simpl. by_evaluation. }
  { constructor. }
  { by left. }
  simpl in Hcols.
  destruct Hrows as [-> | Hrows]; [done |].
  destruct (getitem_wf t "x_stddev" Hwf) as (xstd & Hx & Hgx & Hlx);
    [rewrite Hcols; by_evaluation |].
  destruct (getitem_wf t "y_stddev" Hwf) as (ystd & Hy & Hgy & Hly);
    [rewrite Hcols; by_evaluation |].
  destruct (getitem_wf t "flux" Hwf) as (flux & Hf & Hgf & Hlf);
    [rewrite Hcols; by_evaluation |].
  set (amplitude := zip_with Qdiv flux
                      (zip_with Qmult (Qmult two_pi <$> xstd) ystd)).
  assert (Hamp : "amplitude" ∉ colnames t) by (rewrite Hcols; by_evaluation).
  destruct (setitem_append_wf t "amplitude" amplitude 100 Hwf (or_intror Hrows))
    as (Hset & Hwf' & Hrows'); [| done |].
  { unfold amplitude. rewrite !length_zip_with, length_fmap. lia. }
  exists (t ++ [("amplitude", amplitude)]).
  split; [| split; [| split; [done | split; [done |]]]].
  - unfold sources_100gaussians. rewrite Ht. simpl bind_result.
    rewrite Hx. simpl bind_result. rewrite Hy. simpl bind_result.
    rewrite Hf. simpl bind_result. exact Hset.
  - unfold colnames in *. rewrite fmap_app, Hcols. done.
  - intros k f sx sy Hkf Hkx Hky. unfold row_value in *.
    assert (Hold : ∀ name, name ∈ colnames t →
      get_column (t ++ [("amplitude", amplitude)]) name = get_column t name).
    { intros name Hname. clear -Hname.
      induction t as [| [n c] t IH]; simpl; [by apply elem_of_nil in Hname |].
      case_decide; [done |]. apply IH.
      by apply elem_of_cons in Hname as [-> | ?]. }
    rewrite Hold in Hkf, Hkx, Hky by (rewrite Hcols; by_evaluation).
    rewrite Hgf in Hkf. rewrite Hgx in Hkx. rewrite Hgy in Hky.
    rewrite get_column_app_new by done. simpl in *.
    unfold amplitude. rewrite !lookup_zip_with, list_lookup_fmap.
    by rewrite Hkf, Hkx, Hky.
Qed.

(** X16.  [make_100gaussians_image(noise=False)] returns a 300 x 500 image worth, at
    every pixel, the sum of the 100 Gaussians of its table plus 5; with noise
    of the requested shape, [make_100gaussians_image(noise=True)] returns that
    image plus the noise. *)
Theorem make_100gaussians_image_pixels :
  (∀ a x y, is_Some (Gaussian2D_evaluate a x y)) →
  ∃ sources base,
    sources_100gaussians rng_state RandomState rs_uniform = Ok sources ∧
    colnames sources
      = ["flux"; "x_mean"; "y_mean"; "x_stddev"; "y_stddev"; "theta";
         "amplitude"] ∧
    table_wf sources ∧ nrows sources = 100%nat ∧
    (∀ k f sx sy,
       row_value sources k "flux" = Some f →
       row_value sources k "x_stddev" = Some sx →
       row_value sources k "y_stddev" = Some sy →
       row_value sources k "amplitude" = Some (f / (two_pi * sx * sy))%Q) ∧
    make_100gaussians_image discretize_model Gaussian2D_evaluate rng_state
      RandomState rs_uniform rs_normal false = Ok base ∧
    image_shape base = replicate 300 500%nat ∧
    (∀ i j,
       (i < 300)%nat → (j < 500)%nat →
       pixel base i j
         = Some (sources_sum (Gaussian2D Gaussian2D_evaluate 1 1) sources i j
                 + 5)%Q) ∧
    (image_shape (rs_normal (RandomState 12345) 0 2 (300, 500)%nat).1
       = replicate 300 500%nat →
     make_100gaussians_image discretize_model Gaussian2D_evaluate rng_state
       RandomState rs_uniform rs_normal true
     = image_iadd base (rs_normal (RandomState 12345) 0 2 (300, 500)%nat).1 ∧
     is_ok (image_iadd base (rs_normal (RandomState 12345) 0 2 (300, 500)%nat).1)
       = true).
Proof.
  intros Htotal.
  destruct sources_100gaussians_table
    as (sources & Hsources & Hcols & Hwf & Hrows & Hamplitude).
  destruct (gaussian_image_of_amplitude_table (300, 500)%nat sources)
    as (image & Hrun & Hshape & Hpix); [done | done | |].
  { rewrite Hcols. by_evaluation. }
  exists sources, (image_add_scalar image 5).
  do 5 (split; [done |]).
  unfold make_100gaussians_image. rewrite Hsources. simpl bind_result.
  rewrite Hrun. simpl bind_result.
  split; [done |]. split; [by rewrite image_add_scalar_shape |].
  split.
  - intros i j Hi Hj. apply image_add_scalar_pixel. by apply Hpix.
  - intros Hnoise. split; [done |].
    unfold image_iadd. rewrite decide_True; [done |].
    rewrite image_add_scalar_shape, Hnoise. exact Hshape.
Qed.

End ExampleImagesProperties.

(** ** The PSF test-data builder: the image is the sum of the windows *)







Section PSFDataSum.

Context `{Sampler}.


End PSFDataSum.

(** * Recorded properties *)

(** ** The renderer *)

Ltac solve_model_wf :=
  let p := fresh "p" in
  let Hp := fresh "Hp" in
  intros p Hp; simpl in Hp;
  repeat (apply elem_of_cons in Hp as [-> | Hp]; [by eexists |]);
  by apply elem_of_nil in Hp.

(** X1.  [make_model_sources_image] does not give the model its entry values
    back.  What it saves are the model's own parameter objects, so the
    [finally] block assigns every parameter to itself: when the call returns
    on a table with rows, the model holds the parameters of the last row. *)
Theorem renderer_leaves_last_row
    (discretize_model : Model → Z * Z → Z * Z → Q → option Image)
    shape source_table oversample model model' image n :
  model_wf model → table_wf source_table → nrows source_table = S n →
  make_model_sources_image discretize_model shape source_table oversample model
    = (model', Ok image) →
  model' = with_attrs model
             (row_attrs (attrs model) source_table
                (params_to_set model source_table) n).
Proof.
  intros Hwf Htable Hn Hrun.
  rewrite make_model_sources_image_loop in Hrun by done.
  rewrite Hn, seq_S, fold_each_app in Hrun. simpl in Hrun.
  apply bind_ok_inv in Hrun as (m1 & img1 & Hfirst & Hlast).
  apply bind_ok_inv in Hlast as (m2 & img2 & Hstep & Hret).
  unfold ret in Hret. simplify_eq.
  refine (render_source_model _ _ _ _ _ _ _ _ _ _ _ _ Hstep).
  - intros p Hp. apply row_value_is_Some; [done | | lia].
    unfold params_to_set in Hp. by apply list_elem_of_filter in Hp as [_ Hp].
  - pose proof (touches_only_fold_each (params_to_set model source_table)
      (seq 0 n)
      (render_source discretize_model shape source_table
         (params_to_set model source_table) oversample)
      (zeros shape)
      (touches_only_render_source discretize_model shape source_table
         (params_to_set model source_table) oversample) model) as Hm1.
    by rewrite Hfirst in Hm1.
Qed.

Lemma renderer_leaves_last_row_witness :
  ∃ model' image,
    make_model_sources_image no_discretize (2, 3)%nat two_sources_table 1
      flat_psf = (model', Ok image) ∧
    model' = with_attrs flat_psf
               (row_attrs (attrs flat_psf) two_sources_table
                  (params_to_set flat_psf two_sources_table) 1).
Proof.
  eexists _, _. split; [vm_compute; reflexivity |].
  eapply (renderer_leaves_last_row no_discretize (2, 3)%nat two_sources_table 1
            flat_psf _ _ 1).
  - solve_model_wf.
  - repeat constructor.
  - reflexivity.
  - vm_compute; reflexivity.
Defined.

(** On this table the model enters with [flux = 1], [x_0 = 0] and is left
    with [flux = 20], [x_0 = 1]. *)
Example renderer_changes_model :
  let run :=
    make_model_sources_image no_discretize (2, 3)%nat two_sources_table 1
      flat_psf in
  is_ok run.2 = true ∧
  getattr flat_psf "flux" = Some 1%Q ∧ getattr flat_psf "x_0" = Some 0%Q ∧
  getattr run.1 "flux" = Some 20%Q ∧ getattr run.1 "x_0" = Some 1%Q.
Proof. vm_compute. repeat split. Qed.

(** X2.  Columns whose names are not parameters of the model are ignored:
    other values in such a column give the same outcome. *)
Theorem renderer_ignores_other_columns
    (discretize_model : Model → Z * Z → Z * Z → Q → option Image)
    shape source_table oversample model name column :
  name ∉ param_names model → length column = nrows source_table →
  make_model_sources_image discretize_model shape
    (replace_column source_table name column) oversample model
  = make_model_sources_image discretize_model shape source_table oversample
      model.
Proof. apply renderer_ignores_column. Qed.

Lemma renderer_ignores_other_columns_witness :
  make_model_sources_image no_discretize (2, 2)%nat
    (replace_column two_sources_table "note" [0; 0]%Q) 1 flat_psf
  = make_model_sources_image no_discretize (2, 2)%nat two_sources_table 1
      flat_psf.
Proof.
  apply (renderer_ignores_other_columns no_discretize (2, 2)%nat
           two_sources_table 1 flat_psf "note" [0; 0]%Q).
  - by_evaluation.
  - reflexivity.
Defined.

(** X3.  Whenever [make_model_sources_image] returns, the image has the
    requested shape. *)
Theorem renderer_image_shape
    (discretize_model : Model → Z * Z → Z * Z → Q → option Image)
    shape source_table oversample model model' image :
  make_model_sources_image discretize_model shape source_table oversample model
    = (model', Ok image) →
  image_shape image = replicate shape.1 shape.2.
Proof. apply make_model_sources_image_shape. Qed.

Lemma renderer_image_shape_witness :
  ∃ model' image,
    make_model_sources_image no_discretize (2, 3)%nat two_sources_table 1
      flat_psf = (model', Ok image) ∧
    image_shape image = [3; 3]%nat.
Proof.
  eexists _, _. split; [vm_compute; reflexivity |].
  apply (renderer_image_shape no_discretize (2, 3)%nat two_sources_table 1
           flat_psf (make_model_sources_image no_discretize (2, 3)%nat
                       two_sources_table 1 flat_psf).1).
  vm_compute; reflexivity.
Defined.

Lemma make_model_sources_image_no_rows_witness :
  make_model_sources_image no_discretize (2, 3)%nat no_rows_table 1 flat_psf
    = (flat_psf, Ok (zeros (2, 3)%nat)).
Proof.
  apply (make_model_sources_image_no_rows no_discretize (2, 3)%nat
           no_rows_table 1 flat_psf).
  - solve_model_wf.
  - reflexivity.
Defined.

(** X5.  With a model that evaluates everywhere and no oversampling,
    [make_model_sources_image] returns, and every pixel [(i, j)] of the image
    is the sum over the rows of the model value at [x = j], [y = i] with the
    parameters of the row (and the model's own values for the parameters the
    table does not have). *)
Theorem renderer_image_is_sum
    (discretize_model : Model → Z * Z → Z * Z → Q → option Image)
    shape source_table oversample model :
  model_wf model → table_wf source_table →
  Qeq_bool oversample 1 = true →
  evaluates_everywhere model →
  ∃ image,
    (make_model_sources_image discretize_model shape source_table oversample
       model).2 = Ok image ∧
    ∀ i j,
      (i < shape.1)%nat → (j < shape.2)%nat →
      pixel image i j = Some (sources_sum model source_table i j).
Proof. apply make_model_sources_image_sum. Qed.

Lemma renderer_image_is_sum_witness :
  ∃ image,
    (make_model_sources_image no_discretize (2, 3)%nat two_sources_table 1
       flat_psf).2 = Ok image ∧
    ∀ i j,
      (i < 2)%nat → (j < 3)%nat →
      pixel image i j = Some (sources_sum flat_psf two_sources_table i j).
Proof.
  apply (renderer_image_is_sum no_discretize (2, 3)%nat two_sources_table 1
           flat_psf).
  - solve_model_wf.
  - repeat constructor.
  - reflexivity.
  - intros a x y. simpl. by eexists.
Defined.

(** On this table every pixel is worth the sum of the two fluxes. *)
Example sources_sum_two_sources :
  (sources_sum flat_psf two_sources_table 1 2 == 30)%Q.
Proof. vm_compute. reflexivity. Qed.

Lemma make_model_sources_image_aborts_witness :
  ∃ k',
    (k' < nrows negative_flux_table)%nat ∧
    call_model
      (with_attrs picky_psf
         (row_attrs (attrs picky_psf) negative_flux_table
            (params_to_set picky_psf negative_flux_table) k'))
      (indices (2, 3)%nat) = None ∧
    make_model_sources_image no_discretize (2, 3)%nat negative_flux_table 1
      picky_psf
    = (with_attrs picky_psf
         (row_attrs (attrs picky_psf) negative_flux_table
            (params_to_set picky_psf negative_flux_table) k'),
       Raise ModelEvaluationError).
Proof.
  apply (make_model_sources_image_aborts no_discretize (2, 3)%nat
           negative_flux_table 1 picky_psf 1 0 0).
  - solve_model_wf.
  - repeat constructor.
  - reflexivity.
  - simpl. lia.
  - simpl. lia.
  - simpl. lia.
  - vm_compute. reflexivity.
Defined.

(** On this run the second row fails: the model enters with [flux = 1],
    [x_0 = 0] and is left with [flux = -5], [x_0 = 1]. *)
Example renderer_abort_leaves_failing_row :
  let run :=
    make_model_sources_image no_discretize (2, 3)%nat negative_flux_table 1
      picky_psf in
  run.2 = Raise ModelEvaluationError ∧
  getattr picky_psf "flux" = Some 1%Q ∧ getattr picky_psf "x_0" = Some 0%Q ∧
  getattr run.1 "flux" = Some (-5)%Q ∧ getattr run.1 "x_0" = Some 1%Q.
Proof. vm_compute. repeat split. Qed.

(** ** The PSF window *)

Lemma bbox_model_shape_covers_witness :
  (exact_half_shift (x_lower example_bbox) (-5 # 2) ∧
   exact_half_shift (x_upper example_bbox) (5 # 2) ∧
   exact_half_shift (y_lower example_bbox) (-3 # 2) ∧
   exact_half_shift (y_upper example_bbox) (3 # 2)) ∧
  ∃ model_shape,
    bbox_model_shape example_bbox = Ok model_shape ∧
    ((3 # 2) - (-3 # 2) <= inject_Z model_shape.1)%Q ∧
    (inject_Z model_shape.1 < (3 # 2) - (-3 # 2) + 2)%Q ∧
    ((5 # 2) - (-5 # 2) <= inject_Z model_shape.2)%Q ∧
    (inject_Z model_shape.2 < (5 # 2) - (-5 # 2) + 2)%Q.
Proof.
  assert (Hxl : exact_half_shift (x_lower example_bbox) (-5 # 2))
    by (split; eexists; (split; [vm_compute; reflexivity | reflexivity])).
  assert (Hxu : exact_half_shift (x_upper example_bbox) (5 # 2))
    by (split; eexists; (split; [vm_compute; reflexivity | reflexivity])).
  assert (Hyl : exact_half_shift (y_lower example_bbox) (-3 # 2))
    by (split; eexists; (split; [vm_compute; reflexivity | reflexivity])).
  assert (Hyu : exact_half_shift (y_upper example_bbox) (3 # 2))
    by (split; eexists; (split; [vm_compute; reflexivity | reflexivity])).
  split; [done |].
  exact (bbox_model_shape_covers example_bbox _ _ _ _ Hxl Hxu Hyl Hyu).
Defined.

(** The shape of this box is 3 x 5. *)
Example bbox_model_shape_example :
  bbox_model_shape example_bbox = Ok (3, 5).
Proof. vm_compute. reflexivity. Qed.

Lemma define_psf_shape_shrinks_only_witness :
  _define_psf_shape (data_psf [10; 10]) (20, 5)
    = ([PsfShapeLargerThanModel (10, 5)], Ok (10, 5)) ∧
  (10, 5).1 ≤ (20, 5).1 ∧ (10, 5).2 ≤ (20, 5).2 ∧
  (((10, 5) = (20, 5) ∧ [PsfShapeLargerThanModel (10, 5)] = []) ∨
   ((10, 5) ≠ (20, 5) ∧
    ([PsfShapeLargerThanModel (10, 5)] = [PsfShapeLargerThanModel (10, 5)] ∨
     [PsfShapeLargerThanModel (10, 5)] = [PsfShapeLargerThanBoundingBox (10, 5)]))).
Proof.
  split; [vm_compute; reflexivity |].
  apply (define_psf_shape_shrinks_only (data_psf [10; 10]) (20, 5)
           [PsfShapeLargerThanModel (10, 5)] (10, 5)).
  vm_compute; reflexivity.
Defined.

Lemma define_psf_shape_idempotent_witness :
  _define_psf_shape (data_psf [10; 10]) (20, 5)
    = ([PsfShapeLargerThanModel (10, 5)], Ok (10, 5)) ∧
  _define_psf_shape (data_psf [10; 10]) (10, 5) = ([], Ok (10, 5)).
Proof.
  split; [vm_compute; reflexivity |].
  apply (define_psf_shape_idempotent (data_psf [10; 10]) (20, 5)
           [PsfShapeLargerThanModel (10, 5)] (10, 5)).
  vm_compute; reflexivity.
Defined.

(** ** The PSF test-data builder *)

Lemma make_test_psf_data_shape_witness :
  make_test_psf_data (9, 9)%nat (3, 3) 5 (100, 1000)%Q 100 0 None flat_psf
    = (example_model', ([], Ok (example_data, example_sources))) ∧
  image_shape example_data = replicate 9 9%nat.
Proof.
  split; [vm_compute; reflexivity |].
  apply (@make_test_psf_data_shape lattice_sampler (9, 9)%nat (3, 3) 5
           (100, 1000)%Q 100 0 None flat_psf example_model' []
           example_data example_sources).
  vm_compute; reflexivity.
Defined.

Lemma make_test_psf_data_no_sources_witness :
  _define_psf_shape flat_psf (3, 3) = ([], Ok (3, 3)) ∧
  make_test_psf_data (9, 9)%nat (3, 3) 0 (100, 1000)%Q 1 0 None flat_psf
    = (flat_psf,
       ([], Ok (zeros (9, 9)%nat, [("x", []); ("y", []); ("flux", [])]))).
Proof.
  split; [vm_compute; reflexivity |].
  apply (@make_test_psf_data_no_sources lattice_sampler (9, 9)%nat (3, 3)
           (100, 1000)%Q 1 0 None flat_psf [] (3, 3)).
  vm_compute; reflexivity.
Defined.

Lemma make_test_psf_data_default_border_returns_witness :
  ∃ psf_model' data sources,
    make_test_psf_data (9, 9)%nat (3, 3) 5 (100, 1000)%Q 2 0 None flat_psf
      = (psf_model', ([], Ok (data, sources))).
Proof.
  apply (@make_test_psf_data_default_border_returns lattice_sampler (9, 9)%nat
           (3, 3) 5 (100, 1000)%Q 2 0 flat_psf [] (3, 3)).
  - vm_compute; reflexivity.
  - simpl. lia.
  - simpl. lia.
  - intros a x y. simpl. by eexists.
Defined.

(** ** The canned example images *)

Lemma make_4gaussians_image_pixels_witness :
  ∃ base,
    make_4gaussians_image no_discretize total_amplitude_evaluate nat Z.to_nat
      counter_normal false = Ok base ∧
    image_shape base = replicate 100 200%nat ∧
    (∀ i j,
       (i < 100)%nat → (j < 200)%nat →
       pixel base i j
         = Some (sources_sum (Gaussian2D total_amplitude_evaluate 1 1)
                   table_4gaussians i j + 5)%Q) ∧
    (image_shape (counter_normal (Z.to_nat 12345) 0 5 (100, 200)%nat).1
       = replicate 100 200%nat →
     make_4gaussians_image no_discretize total_amplitude_evaluate nat Z.to_nat
       counter_normal true
     = image_iadd base (counter_normal (Z.to_nat 12345) 0 5 (100, 200)%nat).1 ∧
     is_ok (image_iadd base (counter_normal (Z.to_nat 12345) 0 5 (100, 200)%nat).1)
       = true).
Proof.
  apply (make_4gaussians_image_pixels no_discretize total_amplitude_evaluate nat
           Z.to_nat counter_normal).
  intros a x y. by eexists.
Defined.

Lemma make_100gaussians_image_pixels_witness :
  ∃ sources base,
    sources_100gaussians nat Z.to_nat counter_uniform = Ok sources ∧
    colnames sources
      = ["flux"; "x_mean"; "y_mean"; "x_stddev"; "y_stddev"; "theta";
         "amplitude"] ∧
    table_wf sources ∧ nrows sources = 100%nat ∧
    (∀ k f sx sy,
       row_value sources k "flux" = Some f →
       row_value sources k "x_stddev" = Some sx →
       row_value sources k "y_stddev" = Some sy →
       row_value sources k "amplitude" = Some (f / (two_pi * sx * sy))%Q) ∧
    make_100gaussians_image no_discretize total_amplitude_evaluate nat Z.to_nat
      counter_uniform counter_normal false = Ok base ∧
    image_shape base = replicate 300 500%nat ∧
    (∀ i j,
       (i < 300)%nat → (j < 500)%nat →
       pixel base i j
         = Some (sources_sum (Gaussian2D total_amplitude_evaluate 1 1) sources
                   i j + 5)%Q) ∧
    (image_shape (counter_normal (Z.to_nat 12345) 0 2 (300, 500)%nat).1
       = replicate 300 500%nat →
     make_100gaussians_image no_discretize total_amplitude_evaluate nat
       Z.to_nat counter_uniform counter_normal true
     = image_iadd base (counter_normal (Z.to_nat 12345) 0 2 (300, 500)%nat).1 ∧
     is_ok (image_iadd base (counter_normal (Z.to_nat 12345) 0 2 (300, 500)%nat).1)
       = true).
Proof.
  apply (make_100gaussians_image_pixels no_discretize total_amplitude_evaluate
           nat Z.to_nat counter_uniform counter_normal).
  - intros rng low high size. apply length_replicate.
  - intros a x y. by eexists.
Defined.


(** On this run the pixel [(1, 2)] lies in the window of the single source
    and holds its flux; the pixel [(5, 5)] lies outside. *)
Example psf_sum_example :
  psf_sum flat_psf (9, 9)%nat (3, 3) example_sources "x" "y" "flux"
    (seq 0 (nrows example_sources)) 0 1 2 = (0 + (600 # 6))%Q ∧
  psf_sum flat_psf (9, 9)%nat (3, 3) example_sources "x" "y" "flux"
    (seq 0 (nrows example_sources)) 0 5 5 = 0%Q.
Proof. split; vm_compute; reflexivity. Qed.

(** ** The wrappers, end to end *)

Lemma convert_column_wf f t name new factor :
  table_wf t → name ∈ colnames t → new ∉ colnames t →
  operand_fits (nrows t) factor →
  ∃ c,
    setitem t new (as_column t (broadcast f (column_or_default t name 0%Q) factor))
      = Ok (t ++ [(new, c)]) ∧
    table_wf (t ++ [(new, c)]) ∧
    ∀ i x y,
      row_value t i name = Some x → operand_at factor i = Some y →
      row_value (t ++ [(new, c)]) i new = Some (f x y).
Proof.
  intros Hwf Hname Hnew Hfits.
  destruct (convert_column f t name new factor Hwf Hname Hnew Hfits)
    as (c & Hc & Hset & Hrows).
  exists c. split; [done |]. split; [| done].
  pose proof (operand_fits_broadcast f _ _ _
    (column_or_default_fits t name 0%Q Hwf) Hfits) as Hlen.
  rewrite Hc in Hlen. simpl in Hlen.
  assert (Hne : t ≠ []) by by eapply colnames_nonempty.
  apply (setitem_append_wf t new c (nrows t)); auto.
Qed.

Lemma prf_model_wf Pe sigma : model_wf (IntegratedGaussianPRF Pe sigma).
Proof.
  intros p Hp. simpl in Hp.
  repeat (apply elem_of_cons in Hp as [-> | Hp]; [by eexists |]).
  by apply elem_of_nil in Hp.
Qed.

Section WrappersEndToEnd.

Variable discretize_model : Model → Z * Z → Z * Z → Q → option Image.
Variable Gaussian2D_evaluate : gmap string Q → Q → Q → option Q.
Variable IntegratedGaussianPRF_evaluate : gmap string Q → Q → Q → option Q.

(** X18.  On a table with a flux column and no amplitude column, with
    [oversample = 1] and a Gaussian that evaluates everywhere,
    [make_gaussian_sources_image] returns
    the image whose pixels are the sums of the Gaussians of the table
    extended with [amplitude = flux / (2 pi x_stddev y_stddev)], a missing
    standard deviation being 1. *)
Theorem make_gaussian_sources_image_of_flux shape (σ : store) l t :
  σ !! l = Some t → table_wf t →
  "flux" ∈ colnames t → "amplitude" ∉ colnames t →
  (∀ a x y, is_Some (Gaussian2D_evaluate a x y)) →
  ∃ amplitude image,
    (∀ k f sx sy,
       row_value t k "flux" = Some f →
       operand_at (column_or_default t "x_stddev" 1%Q) k = Some sx →
       operand_at (column_or_default t "y_stddev" 1%Q) k = Some sy →
       amplitude !! k = Some (f / (two_pi * sx * sy))%Q) ∧
    (make_gaussian_sources_image discretize_model Gaussian2D_evaluate shape l
       1 σ).2 = Ok image ∧
    ∀ i j,
      (i < shape.1)%nat → (j < shape.2)%nat →
      pixel image i j
        = Some (sources_sum (Gaussian2D Gaussian2D_evaluate 1 1)
                  (t ++ [("amplitude", amplitude)]) i j).
Proof.
  intros Hl Hwf Hflux Hamp Htotal.
  destruct (convert_column_wf Qdiv t "flux" "amplitude" (gaussian_factor t))
    as (c & Hset & Hwf' & Hrows); try done; [by apply gaussian_factor_fits |].
  destruct (make_model_sources_image_sum discretize_model shape
    (t ++ [("amplitude", c)]) 1 (Gaussian2D Gaussian2D_evaluate 1 1))
    as (image & Hrun & Hpix); try done; [apply gaussian_model_wf |].
  exists c, image. split; [| split; [| exact Hpix]].
  - intros k f sx sy Hf Hsx Hsy.
    specialize (Hrows k f (two_pi * sx * sy)%Q Hf).
    unfold row_value in Hrows. rewrite get_column_app_new in Hrows by done.
    apply Hrows. unfold gaussian_factor.
    apply operand_at_broadcast; [| done]. by apply operand_at_broadcast.
  - unfold make_gaussian_sources_image, gaussian_source_table. rewrite Hl.
    rewrite decide_True by done. unfold table_copy.
    change (param_value (Gaussian2D Gaussian2D_evaluate 1 1) "x_stddev") with 1%Q.
    change (param_value (Gaussian2D Gaussian2D_evaluate 1 1) "y_stddev") with 1%Q.
    unfold gaussian_amplitude. fold (gaussian_factor t). rewrite Hset.
    by rewrite Hrun.
Qed.

(** X19.  On a table with an amplitude column and no flux column, and with a
    PRF that evaluates everywhere, [make_gaussian_prf_sources_image] returns
    the image whose pixels are the sums of the PRFs of the table extended
    with [flux = amplitude * (2 pi sigma sigma)], a missing sigma being 1. *)
Theorem make_gaussian_prf_sources_image_of_amplitude shape (σ : store) l t :
  σ !! l = Some t → table_wf t →
  "flux" ∉ colnames t → "amplitude" ∈ colnames t →
  (∀ a x y, is_Some (IntegratedGaussianPRF_evaluate a x y)) →
  ∃ flux image,
    (∀ k a s,
       row_value t k "amplitude" = Some a →
       operand_at (column_or_default t "sigma" 1%Q) k = Some s →
       flux !! k = Some (a * (two_pi * s * s))%Q) ∧
    (make_gaussian_prf_sources_image discretize_model
       IntegratedGaussianPRF_evaluate shape l σ).2 = Ok image ∧
    ∀ i j,
      (i < shape.1)%nat → (j < shape.2)%nat →
      pixel image i j
        = Some (sources_sum
                  (IntegratedGaussianPRF IntegratedGaussianPRF_evaluate 1)
                  (t ++ [("flux", flux)]) i j).
Proof.
  intros Hl Hwf Hflux Hamp Htotal.
  destruct (convert_column_wf Qmult t "amplitude" "flux" (prf_factor t))
    as (c & Hset & Hwf' & Hrows); try done; [by apply prf_factor_fits |].
  destruct (make_model_sources_image_sum discretize_model shape
    (t ++ [("flux", c)]) 1
    (IntegratedGaussianPRF IntegratedGaussianPRF_evaluate 1))
    as (image & Hrun & Hpix); try done; [apply prf_model_wf |].
  exists c, image. split; [| split; [| exact Hpix]].
  - intros k a s Ha Hs.
    specialize (Hrows k a (two_pi * s * s)%Q Ha).
    unfold row_value in Hrows. rewrite get_column_app_new in Hrows by done.
    apply Hrows. unfold prf_factor.
    apply operand_at_broadcast; [| done]. by apply operand_at_broadcast.
  - unfold make_gaussian_prf_sources_image, prf_source_table. rewrite Hl.
    rewrite decide_True by done. unfold table_copy.
    change (param_value (IntegratedGaussianPRF IntegratedGaussianPRF_evaluate 1)
              "sigma") with 1%Q.
    unfold prf_flux. fold (prf_factor t). rewrite Hset.
    by rewrite Hrun.
Qed.

End WrappersEndToEnd.

Lemma make_gaussian_sources_image_of_flux_witness :
  ∃ amplitude image,
    (∀ k f sx sy,
       row_value flux_only_table k "flux" = Some f →
       operand_at (column_or_default flux_only_table "x_stddev" 1%Q) k = Some sx →
       operand_at (column_or_default flux_only_table "y_stddev" 1%Q) k = Some sy →
       amplitude !! k = Some (f / (two_pi * sx * sy))%Q) ∧
    (make_gaussian_sources_image no_discretize total_amplitude_evaluate
       (2, 3)%nat 0%nat 1 {[0%nat := flux_only_table]}).2 = Ok image ∧
    ∀ i j,
      (i < 2)%nat → (j < 3)%nat →
      pixel image i j
        = Some (sources_sum (Gaussian2D total_amplitude_evaluate 1 1)
                  (flux_only_table ++ [("amplitude", amplitude)]) i j).
Proof.
  apply (make_gaussian_sources_image_of_flux no_discretize
           total_amplitude_evaluate (2, 3)%nat {[0%nat := flux_only_table]}
           0%nat flux_only_table).
  - reflexivity.
  - repeat constructor.
  - by_evaluation.
  - by_evaluation.
  - intros a x y. by eexists.
Defined.

Lemma make_gaussian_prf_sources_image_of_amplitude_witness :
  ∃ flux image,
    (∀ k a s,
       row_value amplitude_only_table k "amplitude" = Some a →
       operand_at (column_or_default amplitude_only_table "sigma" 1%Q) k = Some s →
       flux !! k = Some (a * (two_pi * s * s))%Q) ∧
    (make_gaussian_prf_sources_image no_discretize total_flux_evaluate
       (2, 3)%nat 0%nat {[0%nat := amplitude_only_table]}).2 = Ok image ∧
    ∀ i j,
      (i < 2)%nat → (j < 3)%nat →
      pixel image i j
        = Some (sources_sum (IntegratedGaussianPRF total_flux_evaluate 1)
                  (amplitude_only_table ++ [("flux", flux)]) i j).
Proof.
  apply (make_gaussian_prf_sources_image_of_amplitude no_discretize
           total_flux_evaluate (2, 3)%nat {[0%nat := amplitude_only_table]}
           0%nat amplitude_only_table).
  - reflexivity.
  - repeat constructor.
  - by_evaluation.
  - by_evaluation.
  - intros a x y. by eexists.
Defined.
